(** * Microteach: the cosmology notebook (cosmo.ipynb)

    A shallow embedding of the four computational cells of the notebook:
    - the dimensional-analysis cell that solves for the Planck-unit
      exponents (module [Dimensional]);
    - the Friedmann cell that integrates for the age and the comoving
      diameter of the universe (module [Friedmann]);
    - the cell that expresses the age and the diameter in Planck units
      (module [NaturalUnits]);
    - the composition cell that prepares the three fractions of the pie
      chart (module [Composition]).

    The definitions come first, one module per cell; the properties
    follow, one module per cell again.

    The exact arithmetic of sympy is modelled over [Q]. The float
    arithmetic of the Friedmann and natural-units cells is idealised over
    [R], with the library routines and constants they call ([quad] of
    scipy, the constants of astropy) as parameters; the expansion rate
    [E] is given on binary64 floats as well, with the exceptions that
    Python raises (module [FriedmannFloat]). The composition cell is
    evaluated on binary64 floats. *)

From Stdlib Require Import Floats.
From Stdlib Require Import ZArith QArith List Lia Lqa String.
From Stdlib Require Import Reals Lra Qreals Epsilon.
Import ListNotations.

(** ** Python outcomes *)

(** The two exceptions that subscripting can raise in the notebook:
    [xs[0]] on an empty list and [d[key]] on a missing key. *)
Inductive Exception : Set :=
  | IndexError
  | KeyError.

Definition result (A : Type) : Type := (Exception + A)%type.

Definition ret {A : Type} (a : A) : result A := inr a.

Definition raise {A : Type} (e : Exception) : result A := inl e.

Definition bind {A B : Type} (m : result A) (f : A -> result B) : result B :=
  match m with
  | inl e => inl e
  | inr a => f a
  end.

Notation "x <- m ;; f" := (bind m (fun x => f))
  (at level 61, m at next level, right associativity).

(** A list comprehension whose body may raise: left to right, stopping at
    the first exception. *)
Fixpoint comprehension {A B : Type} (f : A -> result B) (xs : list A)
  : result (list B) :=
  match xs with
  | [] => ret []
  | x :: rest =>
      y <- f x ;;
      ys <- comprehension f rest ;;
      ret (y :: ys)
  end.

(** [xs[0]] *)
Definition item0 {A : Type} (xs : list A) : result A :=
  match xs with
  | [] => raise IndexError
  | x :: _ => ret x
  end.

(** ** The dimensional unit solver *)

Module Dimensional.

Open Scope Q_scope.

(** [from sympy.physics.units import length, time, mass] *)
Inductive dimension : Set :=
  | length
  | time
  | mass.

Definition dimension_eqb (x y : dimension) : bool :=
  match x, y with
  | length, length | time, time | mass, mass => true
  | _, _ => false
  end.

(** [from sympy.abc import i, j, k] *)
Inductive symbol : Set :=
  | i
  | j
  | k.

Definition symbol_eqb (x y : symbol) : bool :=
  match x, y with
  | i, i | j, j | k, k => true
  | _, _ => false
  end.

(** A Python dict literal, as the list of its items. *)
Definition dict (K V : Type) : Type := list (K * V).

(** [d[key]] *)
Fixpoint getitem {K V : Type} (eqb : K -> K -> bool) (d : dict K V) (key : K)
  : result V :=
  match d with
  | [] => raise KeyError
  | (key', v) :: rest => if eqb key' key then ret v else getitem eqb rest key
  end.

Definition dims : Type := dict dimension Z.

Definition L : dimension := length.
Definition T : dimension := time.
Definition M : dimension := mass.

Definition L_dims : dims := [(L, 1); (T, 0); (M, 0)]%Z.
Definition T_dims : dims := [(L, 0); (T, 1); (M, 0)]%Z.

Definition c_dims : dims := [(L, 1); (T, -1); (M, 0)]%Z.
Definition hbar_dims : dims := [(L, 2); (T, -1); (M, 1)]%Z.
Definition G_dims : dims := [(L, 3); (M, -1); (T, -2)]%Z.

(** *** sympy expressions that are linear in [i], [j], [k]

    [Expr a b c d] stands for [a*i + b*j + c*k + d]; every coefficient is
    kept in lowest terms, as sympy keeps its [Rational]s. *)
Record expr : Set := Expr {
  coeff_i : Q;
  coeff_j : Q;
  coeff_k : Q;
  constant : Q
}.

Definition coeff (e : expr) (s : symbol) : Q :=
  match s with
  | i => coeff_i e
  | j => coeff_j e
  | k => coeff_k e
  end.

Definition Symbol (s : symbol) : expr :=
  match s with
  | i => Expr 1 0 0 0
  | j => Expr 0 1 0 0
  | k => Expr 0 0 1 0
  end.

Definition Number (q : Q) : expr := Expr 0 0 0 (Qred q).

Definition Integer (n : Z) : expr := Number (inject_Z n).

Definition Add (e f : expr) : expr :=
  Expr (Qred (coeff_i e + coeff_i f)) (Qred (coeff_j e + coeff_j f))
       (Qred (coeff_k e + coeff_k f)) (Qred (constant e + constant f)).

Definition Scale (q : Q) (e : expr) : expr :=
  Expr (Qred (q * coeff_i e)) (Qred (q * coeff_j e))
       (Qred (q * coeff_k e)) (Qred (q * constant e)).

Definition Sub (e f : expr) : expr := Add e (Scale (-1) f).

(** The value of an expression once numbers are given to the symbols. *)
Definition eval (e : expr) (vi vj vk : Q) : Q :=
  coeff_i e * vi + coeff_j e * vj + coeff_k e * vk + constant e.

Definition is_zero (q : Q) : bool := Qeq_bool q 0.

(** An expression with no symbol in it is a number. *)
Definition is_number (e : expr) : bool :=
  is_zero (coeff_i e) && is_zero (coeff_j e) && is_zero (coeff_k e).

(** *** sympy's [solve] on a linear system

    [solve] is sympy's, not the notebook's. On a system of linear
    equations its answer is fixed by linear algebra and is modelled here
    by exact Gauss-Jordan elimination over [Q], the symbols taken as pivot
    columns in the order given: an empty list when the system has no
    solution, otherwise one dictionary that gives every pivot symbol in
    terms of the remaining (free) symbols. Equations without a symbol are
    looked at first, as [solve] does: a zero one is dropped, a non-zero
    one leaves no solution, and so does a system with nothing left. *)

Fixpoint preprocess (f : list expr) : option (list expr) :=
  match f with
  | [] => Some []
  | fi :: rest =>
      if is_number fi then
        if is_zero (constant fi) then preprocess rest else None
      else option_map (cons fi) (preprocess rest)
  end.

(** The first row in which [s] occurs, and the other rows. *)
Fixpoint find_pivot (s : symbol) (rows : list expr)
  : option (expr * list expr) :=
  match rows with
  | [] => None
  | r :: rest =>
      if is_zero (coeff r s) then
        match find_pivot s rest with
        | Some (p, others) => Some (p, r :: others)
        | None => None
        end
      else Some (r, rest)
  end.

Definition normalise (s : symbol) (r : expr) : expr := Scale (/ coeff r s) r.

Definition eliminate (s : symbol) (p r : expr) : expr :=
  Sub r (Scale (coeff r s) p).

Record tableau : Set := Tableau {
  pivots : list (symbol * expr);
  rows : list expr
}.

Definition reduce_column (t : tableau) (s : symbol) : tableau :=
  match find_pivot s (rows t) with
  | None => t
  | Some (r, rest) =>
      let p := normalise s r in
      Tableau (map (fun sq => (fst sq, eliminate s p (snd sq))) (pivots t)
                 ++ [(s, p)])
              (map (eliminate s p) rest)
  end.

Definition rref (f : list expr) (symbols : list symbol) : tableau :=
  fold_left reduce_column symbols (Tableau [] f).

(** A row left without pivot has lost all its symbols: it reads
    [constant = 0]. *)
Definition consistent (t : tableau) : bool :=
  forallb (fun r => is_zero (constant r)) (rows t).

(** A pivot row [s + rest = 0] gives [s = - rest]. *)
Definition solved (sp : symbol * expr) : symbol * expr :=
  (fst sp, Sub (Symbol (fst sp)) (snd sp)).

(** [solve(f, *symbols, dict=True)] *)
Definition solve (f : list expr) (symbols : list symbol)
  : list (dict symbol expr) :=
  match preprocess f with
  | None => []
  | Some [] => []
  | Some f' =>
      let t := rref f' symbols in
      if consistent t then [map solved (pivots t)] else []
  end.

(** *** The cell *)

(** [i*c_x + j*hbar_x + k*G_x - target_x], the sympy expression built from
    the four exponents of one dimension. *)
Definition equation_of (c_x hbar_x G_x target_x : Z) : expr :=
  Sub (Add (Add (Scale (inject_Z c_x) (Symbol i))
                (Scale (inject_Z hbar_x) (Symbol j)))
           (Scale (inject_Z G_x) (Symbol k)))
      (Integer target_x).

(** [i*c_dims[x] + j*hbar_dims[x] + k*G_dims[x] - T_dims[x]], one element
    of the comprehension over [x in (L, T, M)]. *)
Definition equation (c_dims hbar_dims G_dims target : dims) (x : dimension)
  : result expr :=
  c_x <- getitem dimension_eqb c_dims x ;;
  hbar_x <- getitem dimension_eqb hbar_dims x ;;
  G_x <- getitem dimension_eqb G_dims x ;;
  target_x <- getitem dimension_eqb target x ;;
  ret (equation_of c_x hbar_x G_x target_x).

(** [solve([... for x in (L, T, M)], i, j, k, dict=True)[0]], with the
    dimension vectors as parameters. *)
Definition planck_dims (c_dims hbar_dims G_dims target : dims)
  : result (dict symbol expr) :=
  f <- comprehension (equation c_dims hbar_dims G_dims target) [L; T; M] ;;
  item0 (solve f [i; j; k]).

Definition t_p_dims : result (dict symbol expr) :=
  planck_dims c_dims hbar_dims G_dims T_dims.

Definition l_p_dims : result (dict symbol expr) :=
  planck_dims c_dims hbar_dims G_dims L_dims.

(** [t_p_dims[i]], [t_p_dims[j]], [t_p_dims[k]]: the three exponents as
    they are read off to build the unit. *)
Definition exponents (d : result (dict symbol expr))
  : result (expr * expr * expr) :=
  d' <- d ;;
  e_i <- getitem symbol_eqb d' i ;;
  e_j <- getitem symbol_eqb d' j ;;
  e_k <- getitem symbol_eqb d' k ;;
  ret (e_i, e_j, e_k).

(** *** Specification vocabulary for the solver *)

(** The dimension vector with the given length, time and mass exponents. *)
Definition dims_of (l t m : Z) : dims := [(L, l); (T, t); (M, m)].

(** The determinant of the matrix whose columns are the dimension vectors
    of the three constants: they are linearly independent exactly when it
    is not zero. *)
Definition det3 (cl ct cm hl ht hm gl gt gm : Q) : Q :=
  cl * (ht * gm - gt * hm) - hl * (ct * gm - gt * cm)
  + gl * (ct * hm - ht * cm).

(** The exponents [vi], [vj], [vk] balance the dimensions: in every base
    dimension, [vi * d_c + vj * d_hbar + vk * d_G = d_target]. *)
Definition balances (c_dims hbar_dims G_dims target : dims) (vi vj vk : Q)
  : Prop :=
  forall x c_x hbar_x G_x target_x,
    getitem dimension_eqb c_dims x = inr c_x ->
    getitem dimension_eqb hbar_dims x = inr hbar_x ->
    getitem dimension_eqb G_dims x = inr G_x ->
    getitem dimension_eqb target x = inr target_x ->
    vi * inject_Z c_x + vj * inject_Z hbar_x + vk * inject_Z G_x
    == inject_Z target_x.

(** Two expressions with equal coefficients. *)
Definition eqv (e f : expr) : Prop :=
  coeff_i e == coeff_i f /\ coeff_j e == coeff_j f /\
  coeff_k e == coeff_k f /\ constant e == constant f.

(** The rows that elimination can build from the rows of [f]. *)
Inductive span (f : list expr) : expr -> Prop :=
  | span_row e : In e f -> span f e
  | span_Scale q e : span f e -> span f (Scale q e)
  | span_Sub e e' : span f e -> span f e' -> span f (Sub e e')
  | span_eqv e e' : eqv e e' -> span f e -> span f e'.

(** All the rows of a tableau. *)
Definition all_rows (t : tableau) : list expr :=
  map snd (pivots t) ++ rows t.

(** The numbers [vi], [vj], [vk] solve every equation of [f]. *)
Definition solves (f : list expr) (vi vj vk : Q) : Prop :=
  forall e, In e f -> eval e vi vj vk == 0.

(** The number that an assignment gives to a symbol. *)
Definition value (vi vj vk : Q) (s : symbol) : Q :=
  match s with
  | i => vi
  | j => vj
  | k => vk
  end.

(** The assignment agrees with a dictionary of solved symbols. *)
Definition satisfies (d : dict symbol expr) (vi vj vk : Q) : Prop :=
  forall s e, In (s, e) d -> value vi vj vk s == eval e vi vj vk.

(** A tableau in reduced form for the symbols [done]: a pivot row has 1 at
    its own symbol and 0 at every other pivot symbol; a row without pivot
    has 0 at every symbol of [done]; all rows come from [f]. *)
Record reduced (f : list expr) (done : list symbol) (t : tableau) : Prop := {
  pivot_done : forall s p, In (s, p) (pivots t) -> In s done;
  pivot_one : forall s p, In (s, p) (pivots t) -> coeff p s == 1;
  pivot_zero : forall s p s' p', In (s, p) (pivots t) ->
               In (s', p') (pivots t) -> s' <> s -> coeff p s' == 0;
  row_zero : forall r s, In r (rows t) -> In s done -> coeff r s == 0;
  pivot_span : forall s p, In (s, p) (pivots t) -> span f p;
  row_span : forall r, In r (rows t) -> span f r
}.

End Dimensional.

(** ** The Friedmann integrator *)

Module Friedmann.

Open Scope R_scope.

(** [scipy.integrate.quad(func, a, b)] answers with the pair
    [(y, abserr)]: the estimate of the integral and an estimate of the
    absolute error in it. The routine is scipy's, not the notebook's, and
    is a parameter of the cell. *)
Definition integrator : Type := (R -> R) -> R -> R -> R * R.

Section Cell.

Variable quad : integrator.

(** [kpc.value] (one kiloparsec in metres) and [c.to("cm/s").value] come
    from astropy's table of constants. *)
Variable kpc_value : R.
Variable c_cgs : R.

(** The two Planck 2018 constants that the cell fixes. *)
Variable H0 : R.
Variable omegam : R.

Definition H0_cgs : R := H0 * 1e3 / (kpc_value * 1e3).

(** [np.sqrt(omegam*a**-3 + (1-omegam))], in exact arithmetic. On
    floats the power overflows for the smallest [a] and the sum is
    rounded: see [FriedmannFloat.E]. *)
Definition E (a : R) : R := sqrt (omegam * powerRZ a (-3) + (1 - omegam)).

(** [lambda a: 1/(a*E(a))] *)
Definition age_integrand (a : R) : R := 1 / (a * E a).

(** [lambda a: 1/(a**2*E(a))] *)
Definition diameter_integrand (a : R) : R := 1 / (a ^ 2 * E a).

Definition age : R := 1 / H0_cgs * fst (quad age_integrand 0 1).

Definition Gyr : R := 60 * 60 * 24 * 365 * 1e9.

Definition diameter : R :=
  2 * c_cgs / H0_cgs * fst (quad diameter_integrand 0 1).

(** The four lines that the cell prints, each with its label. Nothing in
    the cell raises: it always runs to its last line. *)
Definition cell : result (list (string * R)) :=
  ret [ ("Age (Gyr)"%string, age / Gyr);
        ("Age (s)"%string, age);
        ("Diameter (Gpc)"%string, diameter / 1e2 / (kpc_value * 1e6));
        ("Diameter (cm)"%string, diameter) ].

End Cell.

Definition H0 : R := 67.36.
Definition omegam : R := 0.3153.

(** The output that the notebook stores for the cell. *)
Definition stored_output : list (string * R) :=
  [ ("Age (Gyr)"%string, 13.8101772462598);
    ("Age (s)"%string, 4.35517749638049e+17);
    ("Diameter (Gpc)"%string, 28.830349858869567);
    ("Diameter (cm)"%string, 8.896116422606665e+28) ].

(** *** Specification vocabulary: the integrals that [quad] estimates *)

(** [I] is the Riemann integral of [f] over [[a, b]]. *)
Definition is_RInt (f : R -> R) (a b I : R) : Prop :=
  exists pr : Riemann_integrable f a b, RiemannInt pr = I.

(** [I] is the integral of [f] over [(0, b]], improper at 0: the limit of
    the integrals over [[x, b]] as [x] decreases to 0. *)
Definition is_RInt_0 (f : R -> R) (b I : R) : Prop :=
  (forall x, 0 < x <= b -> exists Ix, is_RInt f x b Ix) /\
  forall eps, 0 < eps ->
    exists delta, 0 < delta /\
      forall x Ix, 0 < x < delta -> x <= b -> is_RInt f x b Ix ->
        Rabs (Ix - I) < eps.

(** The tolerances that [quad] works to when none is passed. *)
Definition epsabs : R := 1.49e-8.
Definition epsrel : R := 1.49e-8.

(** [quad] has met its tolerances on the integral of [f] over (0, 1]:
    its estimate is within [max(epsabs, epsrel * |I|)] of the integral
    [I]. *)
Definition converged (quad : integrator) (f : R -> R) : Prop :=
  forall I, is_RInt_0 f 1 I ->
    Rabs (fst (quad f 0 1) - I) <= Rmax epsabs (epsrel * Rabs I).

(** An ideal quadrature over (0, b]: the integral itself, with a zero
    error estimate. *)
Definition exact_quad : integrator :=
  fun f _ b => (epsilon (inhabits 0) (fun I => is_RInt_0 f b I), 0).

(** A quadrature that answers [(y, abserr)] whatever it is asked. *)
Definition fixed_quad (y abserr : R) : integrator := fun _ _ _ => (y, abserr).

(** *** The integrands after a change of variable

    With [u = a^(3/2)] the age integrand becomes
    [(2/3) / sqrt(omegam + (1 - omegam) u^2)], and with [u = a^(1/2)] the
    diameter integrand becomes [2 / sqrt(omegam + (1 - omegam) u^6)]: both
    are continuous and decreasing on [0, 1]. *)
Definition weight (n : nat) (om u : R) : R := / sqrt (om + (1 - om) * u ^ n).

Definition age_substituted (om u : R) : R := 2 / 3 * weight 2 om u.

Definition diameter_substituted (om u : R) : R := 2 * weight 6 om u.

(** *** Certified Riemann sums

    Bounds on the integral over [0, 1] of [1 / sqrt(om + (1 - om) u^n)],
    for [om = om_n / D] and [1 - om = ol_n / D], from [N] intervals of
    equal width: as the integrand decreases, its value at the left end of
    an interval bounds it from above and its value at the right end from
    below. The value at the node [k / N] is bracketed by [t_lo k / S] and
    [t_hi k / S]; the brackets are found with an integer square root and
    checked by squaring, in integers. *)
Section Certificate.

Variable n : nat.
Variables om_n ol_n D : Z.
Variables N S : Z.

Definition radicand_num (k : nat) : Z :=
  om_n * N ^ Z.of_nat n + ol_n * Z.of_nat k ^ Z.of_nat n.

Definition scale : Z := S * S * (D * N ^ Z.of_nat n).

Definition t_lo (k : nat) : Z := Z.sqrt (scale / radicand_num k).

Definition t_hi (k : nat) : Z := t_lo k + 1.

Definition upper_ok (k : nat) : bool :=
  ((0 <? t_hi k)%Z && (scale <=? t_hi k * t_hi k * radicand_num k)%Z)%bool.

Definition lower_ok (k : nat) : bool :=
  ((0 <=? t_lo k)%Z && (t_lo k * t_lo k * radicand_num k <=? scale)%Z)%bool.

(** The sum of the upper brackets at the nodes [0 .. m-1]. *)
Fixpoint upper_sum (m : nat) : option Z :=
  match m with
  | O => Some 0%Z
  | Datatypes.S m' =>
      match upper_sum m' with
      | Some T => if upper_ok m' then Some (T + t_hi m')%Z else None
      | None => None
      end
  end.

(** The sum of the lower brackets at the nodes [1 .. m]. *)
Fixpoint lower_sum (m : nat) : option Z :=
  match m with
  | O => Some 0%Z
  | Datatypes.S m' =>
      match lower_sum m' with
      | Some T =>
          if lower_ok (Datatypes.S m') then Some (T + t_lo (Datatypes.S m'))%Z
          else None
      | None => None
      end
  end.

Definition node (k : nat) : R := IZR (Z.of_nat k) / IZR N.

End Certificate.

(** *** Specification vocabulary: binary64 rounding

    Away from overflow and underflow the binary64 result [y] of an
    operation differs from its exact result [x] by at most the unit
    roundoff 2^-53, in relative terms. *)
Definition unit_roundoff : R := / 9007199254740992.

Definition rounded (x y : R) : Prop :=
  Rabs (y - x) <= unit_roundoff * Rabs x.

(** [e] is a value that binary64 arithmetic can give to [E(a)]: [t] is
    the rounded product [omegam * a**-3], which is not negative, [s] the
    rounded [1 - omegam], [r] their rounded sum and [e] its rounded
    square root. *)
Definition E_rounded (omegam e : R) : Prop :=
  exists t s r,
    0 <= t /\ rounded (1 - omegam) s /\ rounded (t + s) r /\
    rounded (sqrt r) e.

End Friedmann.

(** ** The expansion rate on binary64 floats *)

Module FriedmannFloat.

#[local] Set Warnings "-inexact-float".

Open Scope float_scope.

(** The two exceptions that [a**-3] raises on Python floats. *)
Inductive ArithmeticError : Set :=
  | ZeroDivisionError
  | OverflowError.

(** [a**-3] for a Python float [a], where [p] is the value that the C
    library's [pow(a, -3.0)] returns: Python raises ZeroDivisionError
    for a zero base before it calls [pow], and OverflowError when the
    result of [pow] is infinite. *)
Definition pow_minus_3 (a p : float) : ArithmeticError + float :=
  if a =? 0 then inl ZeroDivisionError
  else if is_infinity p then inl OverflowError
  else inr p.

(** [np.sqrt(omegam*a**-3 + (1-omegam))]: every operation rounds to
    nearest, and an exception of the power ends the call. *)
Definition E (omegam a p : float) : ArithmeticError + float :=
  match pow_minus_3 a p with
  | inl e => inl e
  | inr p' => inr (PrimFloat.sqrt (omegam * p' + (1 - omegam)))
  end.

Definition omegam : float := 0.3153.

(** *** Specification vocabulary *)

(** [f x], [f (f x)], ... : the [n] floats that follow [x] under [f]. *)
Fixpoint steps (f : float -> float) (n : nat) (x : float) : list float :=
  match n with
  | O => []
  | S n' => f x :: steps f n' (f x)
  end.

(** The values that [pow(a, -3.0)] can have. [pow] is accurate to less
    than one unit in the last place and [1/a/a/a], with its three
    roundings, to three: the result of [pow] is one of the nine floats
    from four below [1/a/a/a] to four above it. Where [1/a/a/a] has
    overflowed only that case is kept; it is used below at a point where
    a thousandth of the power overflows too. *)
Definition pow_candidates (a : float) : list float :=
  let q := 1 / a / a / a in
  if is_infinity q then [q]
  else rev (steps next_down 4 q) ++ q :: steps next_up 4 q.

(** Sample points of (0, 1], down to the smallest that the quadrature
    comes near. *)
Definition nodes : list float :=
  [1; 0.5; 0.1; 1e-3; 1e-6; 1e-9; 1e-12; 1e-15; 1e-18].

End FriedmannFloat.

(** ** The age and the diameter in Planck units *)

Module NaturalUnits.

Import Dimensional.

Open Scope R_scope.

(** [x ** e] for a float [x] and a sympy exponent [e]. Every exponent
    that the cell can read off a solution is a number (a solution that
    leaves a symbol free has no entry for it), and the power is the real
    power. *)
Definition power (x : R) (e : expr) : R := Rpower x (Q2R (constant e)).

Section Cell.

(** [c.value], [hbar.value] and [G.value] come from astropy's table of
    constants, in SI units. *)
Variables c_value hbar_value G_value : R.

(** [age] (in seconds) and [diameter] (in centimetres) are those of the
    Friedmann cell. *)
Variables age diameter : R.

(** [c.value**d[i] * hbar.value**d[j] * G.value**d[k]] *)
Definition unit_of (d : result (dict symbol expr)) : result R :=
  e <- exponents d ;;
  ret (power c_value (fst (fst e)) * power hbar_value (snd (fst e))
       * power G_value (snd e)).

Definition t_p_cgs : result R := unit_of t_p_dims.

Definition l_p_cgs : result R := l_p <- unit_of l_p_dims ;; ret (l_p * 100).

Definition cell : result (list (string * R)) :=
  t_p <- t_p_cgs ;;
  l_p <- l_p_cgs ;;
  ret [ ("Age (t_p)"%string, age / t_p);
        ("Diameter (l_p)"%string, diameter / l_p) ].

End Cell.

(** The output that the notebook stores for the cell. *)
Definition stored_output : list (string * R) :=
  [ ("Age (t_p)"%string, 8.02597973438387E+60);
    ("Diameter (l_p)"%string, 5.46573463493201E+61) ].

End NaturalUnits.

(** ** The composition chart *)

Module Composition.

#[local] Set Warnings "-inexact-float".

Open Scope float_scope.

(** The cell works on Python floats, which are binary64: a decimal
    literal stands for the nearest binary64 value and every operation
    rounds to nearest. *)
Definition H0 : float := 67.36.

Definition omegal : float := 0.6847.
Definition ombh2 : float := 0.02237.
Definition h : float := H0 / 100.

(** [h**2] is the C library's [pow(h, 2.0)], which is accurate to less
    than one unit in the last place: the result is the product rounded to
    nearest or one of its two neighbours. The fractions are therefore
    given for any value [h2] of [h**2]; [h_squared] is the rounded
    product. *)
Definition h_squared : float := h * h.

Definition pow_candidates : list float :=
  [next_down h_squared; h_squared; next_up h_squared].

Definition omegab (h2 : float) : float := ombh2 / h2.

Definition omch2 : float := 0.1200.

Definition omegac (h2 : float) : float := omch2 / h2.

Definition labels : list string :=
  ["Baryons"%string; "Dark Matter"%string; "Dark Energy"%string].

Definition sizes (h2 : float) : list float :=
  [omegab h2; omegac h2; omegal].

(** *** Specification vocabulary *)

(** The sum of the fractions, added from left to right. *)
Definition total (xs : list float) : float := fold_left add xs 0.

(** The fractions sum to more than [lo] and to less than [hi]. *)
Definition sums_between (lo hi : float) (xs : list float) : bool :=
  (lo <? total xs) && (total xs <? hi).

(** The same three fractions in exact decimal arithmetic. *)
Definition sizes_exact : list Q :=
  (let h := (6736 # 100) / 100 in
   [(2237 # 100000) / (h * h); (12 # 100) / (h * h); 6847 # 10000])%Q.

End Composition.

(** * Properties of the dimensional unit solver *)

Module DimensionalTheory.

Import Dimensional.
Open Scope Q_scope.

Lemma is_zero_true (q : Q) : is_zero q = true <-> q == 0.
Proof. unfold is_zero. apply Qeq_bool_iff. Qed.

Lemma is_zero_false (q : Q) : is_zero q = false <-> ~ q == 0.
Proof.
  rewrite <- is_zero_true. destruct (is_zero q); split; congruence.
Qed.

Lemma coeff_Scale (q : Q) (e : expr) (s : symbol) :
  coeff (Scale q e) s == q * coeff e s.
Proof. destruct s; exact (Qred_correct _). Qed.

Lemma coeff_Add (e f : expr) (s : symbol) :
  coeff (Add e f) s == coeff e s + coeff f s.
Proof. destruct s; exact (Qred_correct _). Qed.

Lemma coeff_Sub (e f : expr) (s : symbol) :
  coeff (Sub e f) s == coeff e s - coeff f s.
Proof.
  unfold Sub. rewrite coeff_Add, coeff_Scale. ring.
Qed.

Lemma constant_Scale (q : Q) (e : expr) :
  constant (Scale q e) == q * constant e.
Proof. exact (Qred_correct _). Qed.

Lemma constant_Add (e f : expr) :
  constant (Add e f) == constant e + constant f.
Proof. exact (Qred_correct _). Qed.

Lemma constant_Sub (e f : expr) :
  constant (Sub e f) == constant e - constant f.
Proof.
  unfold Sub. rewrite constant_Add, constant_Scale. ring.
Qed.

Lemma symbol_eqb_eq (s s' : symbol) : symbol_eqb s s' = true <-> s = s'.
Proof. destruct s, s'; simpl; split; congruence. Qed.

Lemma eqv_coeff (e e' : expr) (s : symbol) :
  eqv e e' -> coeff e s == coeff e' s.
Proof. intros (Hi & Hj & Hk & _). now destruct s. Qed.

Lemma eqv_intro (e e' : expr) :
  (forall s, coeff e s == coeff e' s) -> constant e == constant e' ->
  eqv e e'.
Proof.
  intros H Hc. repeat split; [apply (H i) | apply (H j) | apply (H k) | easy].
Qed.

(** ** Pivot search *)

Lemma find_pivot_None (s : symbol) (rs : list expr) :
  find_pivot s rs = None -> forall r, In r rs -> coeff r s == 0.
Proof.
  induction rs as [|r0 rs IH]; simpl; intros H r Hin; [contradiction|].
  destruct (is_zero (coeff r0 s)) eqn:Hz; [|discriminate].
  destruct (find_pivot s rs) as [[p others]|] eqn:Hf; [discriminate|].
  destruct Hin as [<-|Hin]; [now apply is_zero_true | now apply IH].
Qed.

Lemma find_pivot_Some (s : symbol) (rs : list expr) (p : expr)
      (others : list expr) :
  find_pivot s rs = Some (p, others) ->
  ~ coeff p s == 0 /\ In p rs /\ incl others rs /\
  forall x, In x rs -> x = p \/ In x others.
Proof.
  revert p others.
  induction rs as [|r0 rs IH]; simpl; intros p others H; [discriminate|].
  destruct (is_zero (coeff r0 s)) eqn:Hz.
  - destruct (find_pivot s rs) as [[p' others']|] eqn:Hf; [|discriminate].
    injection H as <- <-.
    destruct (IH _ _ eq_refl) as (Hp & Hin & Hincl & Hall).
    repeat split; auto.
    + intros x [<-|Hx]; [now left | right; now apply Hincl].
    + intros x [<-|Hx]; [right; now left|].
      destruct (Hall x Hx); [now left | right; now right].
  - injection H as <- <-.
    repeat split; [now apply is_zero_false | now left | | ].
    + intros x Hx; now right.
    + intros x [<-|Hx]; [now left | now right].
Qed.

(** ** Elimination keeps the tableau reduced *)

Lemma reduced_start (f : list expr) : reduced f [] (Tableau [] f).
Proof.
  split; simpl; try contradiction.
  intros r Hr. now apply span_row.
Qed.

Lemma coeff_normalise (s : symbol) (r : expr) (s' : symbol) :
  coeff (normalise s r) s' == / coeff r s * coeff r s'.
Proof. apply coeff_Scale. Qed.

Lemma coeff_eliminate (s : symbol) (p r : expr) (s' : symbol) :
  coeff (eliminate s p r) s' == coeff r s' - coeff r s * coeff p s'.
Proof.
  unfold eliminate. rewrite coeff_Sub, coeff_Scale. reflexivity.
Qed.

Lemma span_normalise (f : list expr) (s : symbol) (r : expr) :
  span f r -> span f (normalise s r).
Proof. apply span_Scale. Qed.

Lemma span_eliminate (f : list expr) (s : symbol) (p r : expr) :
  span f p -> span f r -> span f (eliminate s p r).
Proof.
  intros Hp Hr. apply span_Sub; [assumption | now apply span_Scale].
Qed.

Lemma in_new_pivots (s : symbol) (p : expr) (ps : list (symbol * expr))
      (s0 : symbol) (q0 : expr) :
  In (s0, q0)
     (map (fun sq => (fst sq, eliminate s p (snd sq))) ps ++ [(s, p)]) ->
  (exists q, In (s0, q) ps /\ q0 = eliminate s p q) \/ (s0 = s /\ q0 = p).
Proof.
  intros H. apply in_app_or in H. destruct H as [H|[H|[]]].
  - apply in_map_iff in H. destruct H as ([s1 q] & Heq & Hin).
    simpl in Heq. injection Heq as <- <-. left. now exists q.
  - injection H as <- <-. now right.
Qed.

Lemma reduce_column_reduced (f : list expr) (done : list symbol)
      (t : tableau) (s : symbol) :
  ~ In s done -> reduced f done t ->
  reduced f (s :: done) (reduce_column t s).
Proof.
  intros Hs [Hdone Hone Hzero Hrow Hpspan Hrspan].
  unfold reduce_column.
  destruct (find_pivot s (rows t)) as [[r rest]|] eqn:Hf.
  - destruct (find_pivot_Some _ _ _ _ Hf) as (Hr & Hin & Hincl & _).
    set (p := normalise s r).
    assert (Hps : coeff p s == 1).
    { unfold p. rewrite coeff_normalise. now field. }
    assert (Hpd : forall s', In s' done -> coeff p s' == 0).
    { intros s' Hs'. unfold p. rewrite coeff_normalise.
      rewrite (Hrow r s' Hin Hs'). ring. }
    assert (Hpf : span f p).
    { apply span_normalise. now apply Hrspan. }
    split; simpl.
    + intros s0 q0 H. apply in_new_pivots in H.
      destruct H as [(q & Hq & _)|[-> _]]; [right; eauto | now left].
    + intros s0 q0 H. apply in_new_pivots in H.
      destruct H as [(q & Hq & ->)|[-> ->]]; [|assumption].
      rewrite coeff_eliminate, (Hone _ _ Hq), (Hpd s0 (Hdone _ _ Hq)). ring.
    + intros s0 q0 s1 q1 H H1 Hne.
      apply in_new_pivots in H. apply in_new_pivots in H1.
      destruct H as [(q & Hq & ->)|[-> ->]].
      * rewrite coeff_eliminate.
        destruct H1 as [(q' & Hq' & _)|[-> _]].
        -- rewrite (Hzero _ _ _ _ Hq Hq' Hne), (Hpd s1 (Hdone _ _ Hq')). ring.
        -- rewrite Hps. ring.
      * destruct H1 as [(q' & Hq' & _)|[-> _]]; [|congruence].
        apply Hpd. eauto.
    + intros r0 s0 H H0. apply in_map_iff in H.
      destruct H as (r1 & <- & Hr1). rewrite coeff_eliminate.
      destruct H0 as [<-|H0].
      * rewrite Hps. ring.
      * rewrite (Hrow r1 s0 (Hincl _ Hr1) H0), (Hpd s0 H0). ring.
    + intros s0 q0 H. apply in_new_pivots in H.
      destruct H as [(q & Hq & ->)|[-> ->]]; [|assumption].
      apply span_eliminate; eauto.
    + intros r0 H. apply in_map_iff in H. destruct H as (r1 & <- & Hr1).
      apply span_eliminate; auto.
  - split; simpl; eauto.
    intros r s0 Hr [<-|H0]; [|now eauto].
    now apply (find_pivot_None _ _ Hf).
Qed.

Lemma rref_reduced (f : list expr) : reduced f [k; j; i] (rref f [i; j; k]).
Proof.
  unfold rref; simpl.
  repeat (apply reduce_column_reduced;
          [simpl; intuition discriminate|]).
  apply reduced_start.
Qed.

(** ** Elimination loses no equation *)

Lemma span_trans (g g' : list expr) (e : expr) :
  (forall x, In x g -> span g' x) -> span g e -> span g' e.
Proof.
  intros Hg H. induction H.
  - now apply Hg.
  - now apply span_Scale.
  - now apply span_Sub.
  - eapply span_eqv; eassumption.
Qed.

Lemma eliminate_undo (s : symbol) (p r : expr) :
  eqv (Sub (eliminate s p r) (Scale (- coeff r s) p)) r.
Proof.
  apply eqv_intro.
  - intros s'. rewrite coeff_Sub, coeff_eliminate, coeff_Scale. ring.
  - unfold eliminate.
    rewrite !constant_Sub, !constant_Scale. ring.
Qed.

Lemma normalise_undo (s : symbol) (r : expr) :
  ~ coeff r s == 0 -> eqv (Scale (coeff r s) (normalise s r)) r.
Proof.
  intros Hr. apply eqv_intro.
  - intros s'. rewrite coeff_Scale, coeff_normalise. now field.
  - unfold normalise. rewrite !constant_Scale. now field.
Qed.

Lemma reduce_column_covers (t : tableau) (s : symbol) (x : expr) :
  In x (all_rows t) -> span (all_rows (reduce_column t s)) x.
Proof.
  unfold reduce_column.
  destruct (find_pivot s (rows t)) as [[r rest]|] eqn:Hf;
    [|now apply span_row].
  destruct (find_pivot_Some _ _ _ _ Hf) as (Hr & Hin & Hincl & Hall).
  set (p := normalise s r). unfold all_rows; simpl. intros Hx.
  match goal with |- span ?G _ => set (g := G) end.
  assert (Hp : span g p).
  { apply span_row. unfold g. rewrite map_app. simpl.
    apply in_or_app. left. apply in_or_app. right. now left. }
  assert (Hel : forall q, In q (map snd (pivots t)) \/ In q rest ->
                          span g (eliminate s p q)).
  { intros q [Hq|Hq]; apply span_row; unfold g; apply in_or_app.
    - left. rewrite map_app, map_map. simpl. apply in_or_app. left.
      apply in_map_iff in Hq. destruct Hq as (sq & <- & Hsq).
      apply in_map_iff. now exists sq.
    - right. now apply in_map. }
  apply in_app_or in Hx. destruct Hx as [Hx|Hx].
  - apply (span_eqv _ _ _ (eliminate_undo s p x)).
    apply span_Sub; [apply Hel; now left | now apply span_Scale].
  - destruct (Hall x Hx) as [->|Hx'].
    + apply (span_eqv _ _ _ (normalise_undo s r Hr)). now apply span_Scale.
    + apply (span_eqv _ _ _ (eliminate_undo s p x)).
      apply span_Sub; [apply Hel; now right | now apply span_Scale].
Qed.

Lemma rref_covers (f : list expr) (e : expr) :
  In e f -> span (all_rows (rref f [i; j; k])) e.
Proof.
  intros He. unfold rref; simpl.
  apply (span_trans (all_rows (reduce_column (reduce_column
                                 (Tableau [] f) i) j)));
    [intros x; apply reduce_column_covers|].
  apply (span_trans (all_rows (reduce_column (Tableau [] f) i)));
    [intros x; apply reduce_column_covers|].
  apply reduce_column_covers. exact He.
Qed.

(** ** Rows of the span are combinations of the equations *)

Lemma span_incl (f f' : list expr) (e : expr) :
  incl f' f -> span f' e -> span f e.
Proof.
  intros Hincl H. induction H.
  - apply span_row. now apply Hincl.
  - now apply span_Scale.
  - now apply span_Sub.
  - eapply span_eqv; eassumption.
Qed.

Lemma span_combination (f1 f2 f3 e : expr) :
  span [f1; f2; f3] e ->
  exists a b c, forall s,
    coeff e s == a * coeff f1 s + b * coeff f2 s + c * coeff f3 s.
Proof.
  induction 1 as [e Hin|q e _ (a & b & c & IH)
                 |e e' _ (a & b & c & IH) _ (a' & b' & c' & IH')
                 |e e' Heqv _ (a & b & c & IH)].
  - destruct Hin as [<-|[<-|[<-|[]]]].
    + exists 1, 0, 0. intros s. ring.
    + exists 0, 1, 0. intros s. ring.
    + exists 0, 0, 1. intros s. ring.
  - exists (q * a), (q * b), (q * c). intros s.
    rewrite coeff_Scale, IH. ring.
  - exists (a - a'), (b - b'), (c - c'). intros s.
    rewrite coeff_Sub, IH, IH'. ring.
  - exists a, b, c. intros s. rewrite <- IH. symmetry.
    now apply eqv_coeff.
Qed.

Lemma preprocess_incl (f f' : list expr) :
  preprocess f = Some f' -> incl f' f.
Proof.
  revert f'. induction f as [|fi rest IH]; simpl; intros f' H.
  - injection H as <-. apply incl_refl.
  - destruct (is_number fi).
    + destruct (is_zero (constant fi)); [|discriminate].
      apply incl_tl. now apply IH.
    + destruct (preprocess rest) as [rest'|]; [|discriminate].
      injection H as <-. apply incl_cons; [now left|].
      apply incl_tl. now apply IH.
Qed.

(** A matrix with a left inverse has a non-zero determinant. *)
Lemma left_inverse_det (a1 a2 a3 b1 b2 b3 c1 c2 c3
                        x1 x2 x3 y1 y2 y3 z1 z2 z3 : Q) :
  a1 * x1 + b1 * y1 + c1 * z1 == 1 ->
  a1 * x2 + b1 * y2 + c1 * z2 == 0 ->
  a1 * x3 + b1 * y3 + c1 * z3 == 0 ->
  a2 * x1 + b2 * y1 + c2 * z1 == 0 ->
  a2 * x2 + b2 * y2 + c2 * z2 == 1 ->
  a2 * x3 + b2 * y3 + c2 * z3 == 0 ->
  a3 * x1 + b3 * y1 + c3 * z1 == 0 ->
  a3 * x2 + b3 * y2 + c3 * z2 == 0 ->
  a3 * x3 + b3 * y3 + c3 * z3 == 1 ->
  ~ det3 x1 y1 z1 x2 y2 z2 x3 y3 z3 == 0.
Proof.
  intros H11 H12 H13 H21 H22 H23 H31 H32 H33 Hdet.
  assert (Hmul :
    det3 (a1 * x1 + b1 * y1 + c1 * z1) (a2 * x1 + b2 * y1 + c2 * z1)
         (a3 * x1 + b3 * y1 + c3 * z1) (a1 * x2 + b1 * y2 + c1 * z2)
         (a2 * x2 + b2 * y2 + c2 * z2) (a3 * x2 + b3 * y2 + c3 * z2)
         (a1 * x3 + b1 * y3 + c1 * z3) (a2 * x3 + b2 * y3 + c2 * z3)
         (a3 * x3 + b3 * y3 + c3 * z3)
    == det3 a1 a2 a3 b1 b2 b3 c1 c2 c3
       * det3 x1 y1 z1 x2 y2 z2 x3 y3 z3).
  { unfold det3. ring. }
  rewrite Hdet in Hmul.
  unfold det3 at 1 in Hmul.
  rewrite H11, H12, H13, H21, H22, H23, H31, H32, H33 in Hmul.
  revert Hmul. unfold Qeq; simpl. lia.
Qed.

#[local] Instance det3_proper :
  Proper (Qeq ==> Qeq ==> Qeq ==> Qeq ==> Qeq ==> Qeq ==> Qeq ==> Qeq ==> Qeq
          ==> Qeq) det3.
Proof.
  intros a a' Ha b b' Hb c c' Hc d d' Hd e e' He f f' Hf g g' Hg h h' Hh
         x x' Hx.
  unfold det3. now rewrite Ha, Hb, Hc, Hd, He, Hf, Hg, Hh, Hx.
Qed.

(** ** Solutions *)

Lemma eval_coeff (e : expr) (vi vj vk : Q) :
  eval e vi vj vk
  = coeff e i * vi + coeff e j * vj + coeff e k * vk + constant e.
Proof. reflexivity. Qed.

Lemma eval_Scale (q : Q) (e : expr) (vi vj vk : Q) :
  eval (Scale q e) vi vj vk == q * eval e vi vj vk.
Proof.
  rewrite !eval_coeff, !coeff_Scale, constant_Scale. ring.
Qed.

Lemma eval_Sub (e e' : expr) (vi vj vk : Q) :
  eval (Sub e e') vi vj vk == eval e vi vj vk - eval e' vi vj vk.
Proof.
  rewrite !eval_coeff, !coeff_Sub, constant_Sub. ring.
Qed.

Lemma eval_eqv (e e' : expr) (vi vj vk : Q) :
  eqv e e' -> eval e vi vj vk == eval e' vi vj vk.
Proof.
  intros H. rewrite !eval_coeff.
  rewrite (eqv_coeff _ _ i H), (eqv_coeff _ _ j H), (eqv_coeff _ _ k H).
  destruct H as (_ & _ & _ & ->). reflexivity.
Qed.

Lemma span_solves (f : list expr) (e : expr) (vi vj vk : Q) :
  span f e -> solves f vi vj vk -> eval e vi vj vk == 0.
Proof.
  intros H Hf. induction H as [e He|q e _ IH|e e' _ IH _ IH'|e e' Heqv _ IH].
  - now apply Hf.
  - rewrite eval_Scale, IH. ring.
  - rewrite eval_Sub, IH, IH'. ring.
  - now rewrite <- (eval_eqv _ _ _ _ _ Heqv).
Qed.

(** ** Fewer than three pivots leave the equations dependent *)

Lemma reduce_column_pivots (t : tableau) (s : symbol) :
  pivots (reduce_column t s) = pivots t \/
  exists p,
    pivots (reduce_column t s)
    = map (fun sq => (fst sq, eliminate s p (snd sq))) (pivots t) ++ [(s, p)].
Proof.
  unfold reduce_column.
  destruct (find_pivot s (rows t)) as [[r rest]|]; [right|left].
  - now exists (normalise s r).
  - reflexivity.
Qed.

Lemma rref_pivots (f : list expr) :
  (exists p_i p_j p_k,
     pivots (rref f [i; j; k]) = [(i, p_i); (j, p_j); (k, p_k)]) \/
  (exists p q, forall g,
     In g (map snd (pivots (rref f [i; j; k]))) -> g = p \/ g = q).
Proof.
  unfold rref; simpl.
  set (t1 := reduce_column (Tableau [] f) i).
  set (t2 := reduce_column t1 j).
  destruct (reduce_column_pivots (Tableau [] f) i) as [H1|(p1 & H1)];
    destruct (reduce_column_pivots t1 j) as [H2|(p2 & H2)];
    destruct (reduce_column_pivots t2 k) as [H3|(p3 & H3)];
    fold t1 in H1; fold t2 in H2; rewrite H3, H2, H1; simpl;
    try (left; eauto; fail); right.
  - exists (Number 0), (Number 0). intros g [].
  - exists p3, p3. intros g [<-|[]]; now left.
  - exists p2, p2. intros g [<-|[]]; now left.
  - eexists _, _. intros g [<-|[<-|[]]]; [now left | now right].
  - exists p1, p1. intros g [<-|[]]; now left.
  - eexists _, _. intros g [<-|[<-|[]]]; [now left | now right].
  - eexists _, _. intros g [<-|[<-|[]]]; [now left | now right].
Qed.

Lemma span_two (g : list expr) (p q e : expr) :
  (forall x, In x g -> x = p \/ x = q \/ forall s, coeff x s == 0) ->
  span g e ->
  exists a b, forall s, coeff e s == a * coeff p s + b * coeff q s.
Proof.
  intros Hg H.
  induction H as [e He|c e _ (a & b & IH)
                 |e e' _ (a & b & IH) _ (a' & b' & IH')
                 |e e' Heqv _ (a & b & IH)].
  - destruct (Hg e He) as [->|[->|Hz]].
    + exists 1, 0. intros s. ring.
    + exists 0, 1. intros s. ring.
    + exists 0, 0. intros s. rewrite Hz. ring.
  - exists (c * a), (c * b). intros s. rewrite coeff_Scale, IH. ring.
  - exists (a - a'), (b - b'). intros s. rewrite coeff_Sub, IH, IH'. ring.
  - exists a, b. intros s. rewrite <- IH. symmetry. now apply eqv_coeff.
Qed.

Lemma rank_two_det (a1 a2 a3 b1 b2 b3 p1 p2 p3 q1 q2 q3 : Q) :
  det3 (a1 * p1 + b1 * q1) (a2 * p1 + b2 * q1) (a3 * p1 + b3 * q1)
       (a1 * p2 + b1 * q2) (a2 * p2 + b2 * q2) (a3 * p2 + b3 * q2)
       (a1 * p3 + b1 * q3) (a2 * p3 + b2 * q3) (a3 * p3 + b3 * q3) == 0.
Proof. unfold det3. ring. Qed.

(** When the equations are independent, every symbol gets a pivot. *)
Lemma independent_pivots (f1 f2 f3 : expr) :
  ~ det3 (coeff f1 i) (coeff f2 i) (coeff f3 i)
         (coeff f1 j) (coeff f2 j) (coeff f3 j)
         (coeff f1 k) (coeff f2 k) (coeff f3 k) == 0 ->
  exists p_i p_j p_k,
    pivots (rref [f1; f2; f3] [i; j; k]) = [(i, p_i); (j, p_j); (k, p_k)].
Proof.
  intros Hdet.
  destruct (rref_pivots [f1; f2; f3]) as [H|(p & q & Hpq)]; [exact H|].
  exfalso. apply Hdet.
  destruct (rref_reduced [f1; f2; f3]) as [_ _ _ Hrow _ _].
  assert (Hg : forall x, In x (all_rows (rref [f1; f2; f3] [i; j; k])) ->
                         x = p \/ x = q \/ forall s, coeff x s == 0).
  { intros x Hx. apply in_app_or in Hx. destruct Hx as [Hx|Hx].
    - destruct (Hpq x Hx); auto.
    - right; right. intros s. apply Hrow; [exact Hx|].
      destruct s; simpl; auto. }
  destruct (span_two _ p q f1 Hg (rref_covers [f1; f2; f3] f1 (or_introl eq_refl)))
    as (a1 & b1 & E1).
  destruct (span_two _ p q f2 Hg
              (rref_covers [f1; f2; f3] f2 (or_intror (or_introl eq_refl))))
    as (a2 & b2 & E2).
  destruct (span_two _ p q f3 Hg
              (rref_covers [f1; f2; f3] f3
                 (or_intror (or_intror (or_introl eq_refl)))))
    as (a3 & b3 & E3).
  rewrite (E1 i), (E1 j), (E1 k), (E2 i), (E2 j), (E2 k),
          (E3 i), (E3 j), (E3 k).
  apply rank_two_det.
Qed.

(** ** Reading the solution dictionary *)

Lemma getitem_solved (ps : list (symbol * expr)) (s : symbol) (e : expr) :
  getitem symbol_eqb (map solved ps) s = inr e ->
  exists p, In (s, p) ps /\ e = Sub (Symbol s) p.
Proof.
  induction ps as [|[s0 p0] ps IH]; simpl; [discriminate|].
  destruct (symbol_eqb s0 s) eqn:Hs.
  - apply symbol_eqb_eq in Hs. subst s0. intros H. injection H as <-.
    exists p0. split; [now left | reflexivity].
  - intros H. destruct (IH H) as (p & Hp & ->).
    exists p. split; [now right | reflexivity].
Qed.

(** When all three exponents can be read off the dictionary, the three
    equations are independent. *)
Lemma exponents_independent (f1 f2 f3 : expr) (f' : list expr)
      (e_i e_j e_k : expr) :
  incl f' [f1; f2; f3] ->
  let d := map solved (pivots (rref f' [i; j; k])) in
  getitem symbol_eqb d i = inr e_i ->
  getitem symbol_eqb d j = inr e_j ->
  getitem symbol_eqb d k = inr e_k ->
  ~ det3 (coeff f1 i) (coeff f2 i) (coeff f3 i)
         (coeff f1 j) (coeff f2 j) (coeff f3 j)
         (coeff f1 k) (coeff f2 k) (coeff f3 k) == 0.
Proof.
  intros Hincl d Hi Hj Hk.
  destruct (rref_reduced f') as [_ Hone Hzero _ Hspan _].
  apply getitem_solved in Hi, Hj, Hk.
  destruct Hi as (p_i & Hi & _), Hj as (p_j & Hj & _), Hk as (p_k & Hk & _).
  destruct (span_combination f1 f2 f3 p_i
              (span_incl _ _ _ Hincl (Hspan _ _ Hi))) as (a1 & b1 & c1 & E1).
  destruct (span_combination f1 f2 f3 p_j
              (span_incl _ _ _ Hincl (Hspan _ _ Hj))) as (a2 & b2 & c2 & E2).
  destruct (span_combination f1 f2 f3 p_k
              (span_incl _ _ _ Hincl (Hspan _ _ Hk))) as (a3 & b3 & c3 & E3).
  apply (left_inverse_det a1 a2 a3 b1 b2 b3 c1 c2 c3).
  - rewrite <- E1. exact (Hone _ _ Hi).
  - rewrite <- E1. apply (Hzero _ _ _ _ Hi Hj). discriminate.
  - rewrite <- E1. apply (Hzero _ _ _ _ Hi Hk). discriminate.
  - rewrite <- E2. apply (Hzero _ _ _ _ Hj Hi). discriminate.
  - rewrite <- E2. exact (Hone _ _ Hj).
  - rewrite <- E2. apply (Hzero _ _ _ _ Hj Hk). discriminate.
  - rewrite <- E3. apply (Hzero _ _ _ _ Hk Hi). discriminate.
  - rewrite <- E3. apply (Hzero _ _ _ _ Hk Hj). discriminate.
  - rewrite <- E3. exact (Hone _ _ Hk).
Qed.

Lemma coeff_equation_of (c_x hbar_x G_x target_x : Z) :
  coeff (equation_of c_x hbar_x G_x target_x) i == inject_Z c_x /\
  coeff (equation_of c_x hbar_x G_x target_x) j == inject_Z hbar_x /\
  coeff (equation_of c_x hbar_x G_x target_x) k == inject_Z G_x.
Proof.
  unfold equation_of, Integer, Number.
  repeat split;
    rewrite coeff_Sub, !coeff_Add, !coeff_Scale; simpl; ring.
Qed.

Lemma comprehension_dims_of (cl ct cm hl ht hm gl gt gm tl tt tm : Z) :
  comprehension
    (equation (dims_of cl ct cm) (dims_of hl ht hm) (dims_of gl gt gm)
              (dims_of tl tt tm)) [L; T; M]
  = ret [equation_of cl hl gl tl; equation_of ct ht gt tt;
         equation_of cm hm gm tm].
Proof. reflexivity. Qed.

Lemma exponents_inr_inv (r : result (dict symbol expr)) (e_i e_j e_k : expr) :
  exponents r = inr (e_i, e_j, e_k) ->
  exists d, r = inr d /\ getitem symbol_eqb d i = inr e_i /\
            getitem symbol_eqb d j = inr e_j /\
            getitem symbol_eqb d k = inr e_k.
Proof.
  unfold exponents, bind, ret. destruct r as [e|d]; [discriminate|].
  destruct (getitem symbol_eqb d i) as [|x] eqn:Hi; [discriminate|].
  destruct (getitem symbol_eqb d j) as [|y] eqn:Hj; [discriminate|].
  destruct (getitem symbol_eqb d k) as [|z] eqn:Hk; [discriminate|].
  intros H. injection H as <- <- <-. now exists d.
Qed.

Lemma planck_dims_inr_inv (cl ct cm hl ht hm gl gt gm tl tt tm : Z)
      (d : dict symbol expr) :
  planck_dims (dims_of cl ct cm) (dims_of hl ht hm) (dims_of gl gt gm)
              (dims_of tl tt tm) = inr d ->
  exists f',
    incl f' [equation_of cl hl gl tl; equation_of ct ht gt tt;
             equation_of cm hm gm tm] /\
    d = map solved (pivots (rref f' [i; j; k])).
Proof.
  unfold planck_dims. rewrite comprehension_dims_of.
  unfold bind, ret, solve.
  destruct (preprocess _) as [[|r f'']|] eqn:Hp; try discriminate.
  destruct (consistent _); [|discriminate].
  intros H. injection H as <-.
  exists (r :: f''). split; [now apply preprocess_incl | reflexivity].
Qed.

Lemma exponents_det (cl ct cm hl ht hm gl gt gm tl tt tm : Z)
      (e_i e_j e_k : expr) :
  exponents (planck_dims (dims_of cl ct cm) (dims_of hl ht hm)
                         (dims_of gl gt gm) (dims_of tl tt tm))
  = inr (e_i, e_j, e_k) ->
  ~ det3 (inject_Z cl) (inject_Z ct) (inject_Z cm)
         (inject_Z hl) (inject_Z ht) (inject_Z hm)
         (inject_Z gl) (inject_Z gt) (inject_Z gm) == 0.
Proof.
  intros H. apply exponents_inr_inv in H.
  destruct H as (d & Hd & Hi & Hj & Hk).
  apply planck_dims_inr_inv in Hd. destruct Hd as (f' & Hincl & ->).
  pose proof (exponents_independent _ _ _ _ _ _ _ Hincl Hi Hj Hk) as Hdet.
  destruct (coeff_equation_of cl hl gl tl) as (E1 & E2 & E3).
  destruct (coeff_equation_of ct ht gt tt) as (E4 & E5 & E6).
  destruct (coeff_equation_of cm hm gm tm) as (E7 & E8 & E9).
  now rewrite E1, E2, E3, E4, E5, E6, E7, E8, E9 in Hdet.
Qed.

(** ** Independent vectors: the unique solution is returned *)

Ltac read_dims H :=
  repeat match goal with
         | E : getitem dimension_eqb _ _ = inr _ |- _ =>
             cbv in E; injection E as <-
         end.

Lemma eval_equation_of (c_x hbar_x G_x target_x : Z) (vi vj vk : Q) :
  eval (equation_of c_x hbar_x G_x target_x) vi vj vk
  == vi * inject_Z c_x + vj * inject_Z hbar_x + vk * inject_Z G_x
     - inject_Z target_x.
Proof.
  destruct (coeff_equation_of c_x hbar_x G_x target_x) as (E1 & E2 & E3).
  rewrite eval_coeff, E1, E2, E3.
  unfold equation_of, Integer, Number.
  rewrite constant_Sub, !constant_Add, !constant_Scale.
  cbn [constant Symbol]. rewrite Qred_correct. ring.
Qed.

Lemma balances_dims_of (cl ct cm hl ht hm gl gt gm tl tt tm : Z)
      (vi vj vk : Q) :
  balances (dims_of cl ct cm) (dims_of hl ht hm) (dims_of gl gt gm)
           (dims_of tl tt tm) vi vj vk <->
  solves [equation_of cl hl gl tl; equation_of ct ht gt tt;
          equation_of cm hm gm tm] vi vj vk.
Proof.
  split.
  - intros H e [<-|[<-|[<-|[]]]]; rewrite eval_equation_of.
    + rewrite (H L cl hl gl tl); try reflexivity. ring.
    + rewrite (H T ct ht gt tt); try reflexivity. ring.
    + rewrite (H M cm hm gm tm); try reflexivity. ring.
  - intros H x c_x hbar_x G_x target_x Hc Hh HG Ht.
    destruct x; read_dims Hc.
    + pose proof (H _ (or_introl eq_refl)) as E.
      rewrite eval_equation_of in E. Lqa.lra.
    + pose proof (H _ (or_intror (or_introl eq_refl))) as E.
      rewrite eval_equation_of in E. Lqa.lra.
    + pose proof (H _ (or_intror (or_intror (or_introl eq_refl)))) as E.
      rewrite eval_equation_of in E. Lqa.lra.
Qed.

(** Cramer's rule. *)
Lemma cramer (cl ct cm hl ht hm gl gt gm tl tt tm : Q) :
  ~ det3 cl ct cm hl ht hm gl gt gm == 0 ->
  exists vi vj vk,
    vi * cl + vj * hl + vk * gl - tl == 0 /\
    vi * ct + vj * ht + vk * gt - tt == 0 /\
    vi * cm + vj * hm + vk * gm - tm == 0.
Proof.
  intros Hdet.
  exists (det3 tl tt tm hl ht hm gl gt gm / det3 cl ct cm hl ht hm gl gt gm),
         (det3 cl ct cm tl tt tm gl gt gm / det3 cl ct cm hl ht hm gl gt gm),
         (det3 cl ct cm hl ht hm tl tt tm / det3 cl ct cm hl ht hm gl gt gm).
  unfold det3 in *. repeat split; now field.
Qed.

Lemma Qred_zero (q : Q) : q == 0 -> Qred q = 0.
Proof. intros H. now rewrite (Qred_complete _ _ H). Qed.

(** A pivot row that holds only its own symbol gives that symbol a
    number. *)
Lemma solved_number (s : symbol) (p : expr) :
  coeff p s == 1 -> (forall s', s' <> s -> coeff p s' == 0) ->
  snd (solved (s, p)) = Number (- constant p).
Proof.
  intros H1 H0. unfold solved, Sub, Add, Scale, Number, snd, fst.
  cbn [coeff_i coeff_j coeff_k constant].
  assert (Hi := fun H => H0 i H). assert (Hj := fun H => H0 j H).
  assert (Hk := fun H => H0 k H). cbn [coeff] in Hi, Hj, Hk.
  f_equal.
  - apply Qred_zero. rewrite Qred_correct.
    destruct s; cbn [Symbol coeff_i coeff] in *;
      [rewrite H1 | rewrite Hi by discriminate ..]; ring.
  - apply Qred_zero. rewrite Qred_correct.
    destruct s; cbn [Symbol coeff_j coeff] in *;
      [rewrite Hj by discriminate | rewrite H1
       | rewrite Hj by discriminate]; ring.
  - apply Qred_zero. rewrite Qred_correct.
    destruct s; cbn [Symbol coeff_k coeff] in *;
      [rewrite Hk by discriminate .. | rewrite H1]; ring.
  - apply Qred_complete. rewrite Qred_correct.
    destruct s; cbn [Symbol constant]; ring.
Qed.

Lemma is_number_coeff (e : expr) (s : symbol) :
  is_number e = true -> coeff e s == 0.
Proof.
  unfold is_number. intros H.
  apply andb_prop in H. destruct H as (H & Hk).
  apply andb_prop in H. destruct H as (Hi & Hj).
  destruct s; now apply is_zero_true.
Qed.

Lemma independent_not_number (f1 f2 f3 : expr) :
  ~ det3 (coeff f1 i) (coeff f2 i) (coeff f3 i)
         (coeff f1 j) (coeff f2 j) (coeff f3 j)
         (coeff f1 k) (coeff f2 k) (coeff f3 k) == 0 ->
  is_number f1 = false /\ is_number f2 = false /\ is_number f3 = false.
Proof.
  intros Hdet.
  repeat split;
    match goal with
    | |- is_number ?f = false =>
        destruct (is_number f) eqn:H; [exfalso; apply Hdet|reflexivity];
        rewrite (is_number_coeff f i H), (is_number_coeff f j H),
                (is_number_coeff f k H)
    end; unfold det3; ring.
Qed.

Lemma solves_ext (f : list expr) (vi vj vk wi wj wk : Q) :
  wi == vi -> wj == vj -> wk == vk ->
  solves f vi vj vk -> solves f wi wj wk.
Proof.
  intros Hi Hj Hk H e He. rewrite eval_coeff, Hi, Hj, Hk, <- eval_coeff.
  now apply H.
Qed.

Lemma independent_solve (f1 f2 f3 : expr) :
  ~ det3 (coeff f1 i) (coeff f2 i) (coeff f3 i)
         (coeff f1 j) (coeff f2 j) (coeff f3 j)
         (coeff f1 k) (coeff f2 k) (coeff f3 k) == 0 ->
  (exists xi xj xk, solves [f1; f2; f3] xi xj xk) ->
  exists vi vj vk,
    solve [f1; f2; f3] [i; j; k]
    = [[(i, Number vi); (j, Number vj); (k, Number vk)]] /\
    forall wi wj wk,
      solves [f1; f2; f3] wi wj wk <-> wi == vi /\ wj == vj /\ wk == vk.
Proof.
  intros HdetC (xi & xj & xk & Hx).
  destruct (independent_pivots f1 f2 f3 HdetC) as (p_i & p_j & p_k & Hpiv).
  destruct (rref_reduced [f1; f2; f3]) as [_ Hone Hzero Hrow Hpspan Hrspan].
  rewrite Hpiv in Hone, Hzero, Hpspan.
  assert (Ii : In (i, p_i) [(i, p_i); (j, p_j); (k, p_k)]) by (now left).
  assert (Ij : In (j, p_j) [(i, p_i); (j, p_j); (k, p_k)])
    by (right; now left).
  assert (Ik : In (k, p_k) [(i, p_i); (j, p_j); (k, p_k)])
    by (right; right; now left).
  assert (Hread : forall wi wj wk, solves [f1; f2; f3] wi wj wk ->
            wi == - constant p_i /\ wj == - constant p_j /\
            wk == - constant p_k).
  { intros wi wj wk Hw.
    pose proof (span_solves _ _ _ _ _ (Hpspan _ _ Ii) Hw) as Zi.
    pose proof (span_solves _ _ _ _ _ (Hpspan _ _ Ij) Hw) as Zj.
    pose proof (span_solves _ _ _ _ _ (Hpspan _ _ Ik) Hw) as Zk.
    rewrite eval_coeff in Zi, Zj, Zk.
    rewrite (Hone _ _ Ii), (Hzero _ _ _ _ Ii Ij), (Hzero _ _ _ _ Ii Ik)
      in Zi by discriminate.
    rewrite (Hone _ _ Ij), (Hzero _ _ _ _ Ij Ii), (Hzero _ _ _ _ Ij Ik)
      in Zj by discriminate.
    rewrite (Hone _ _ Ik), (Hzero _ _ _ _ Ik Ii), (Hzero _ _ _ _ Ik Ij)
      in Zk by discriminate.
    repeat split; Lqa.lra. }
  destruct (Hread _ _ _ Hx) as (Xi & Xj & Xk).
  exists (- constant p_i), (- constant p_j), (- constant p_k). split.
  - destruct (independent_not_number f1 f2 f3 HdetC) as (N1 & N2 & N3).
    assert (Hpre : preprocess [f1; f2; f3] = Some [f1; f2; f3]).
    { simpl. now rewrite N1, N2, N3. }
    assert (Hcons : consistent (rref [f1; f2; f3] [i; j; k]) = true).
    { apply forallb_forall. intros r Hr. apply is_zero_true.
      pose proof (span_solves _ _ _ _ _ (Hrspan r Hr) Hx) as Zr.
      rewrite eval_coeff in Zr.
      rewrite (Hrow r i Hr), (Hrow r j Hr), (Hrow r k Hr) in Zr
        by (simpl; auto).
      Lqa.lra. }
    unfold solve. rewrite Hpre, Hcons, Hpiv.
    cbn [map].
    rewrite (surjective_pairing (solved (i, p_i))),
            (surjective_pairing (solved (j, p_j))),
            (surjective_pairing (solved (k, p_k))).
    rewrite !solved_number; [reflexivity |..].
    + exact (Hone _ _ Ik).
    + intros [] Hs; [exact (Hzero _ _ _ _ Ik Ii Hs)
                    | exact (Hzero _ _ _ _ Ik Ij Hs) | congruence].
    + exact (Hone _ _ Ij).
    + intros [] Hs; [exact (Hzero _ _ _ _ Ij Ii Hs) | congruence
                    | exact (Hzero _ _ _ _ Ij Ik Hs)].
    + exact (Hone _ _ Ii).
    + intros [] Hs; [congruence | exact (Hzero _ _ _ _ Ii Ij Hs)
                    | exact (Hzero _ _ _ _ Ii Ik Hs)].
  - intros wi wj wk. split.
    + apply Hread.
    + intros (Wi & Wj & Wk).
      apply (solves_ext _ xi xj xk); [| | |exact Hx].
      * now rewrite Wi, Xi.
      * now rewrite Wj, Xj.
      * now rewrite Wk, Xk.
Qed.

Lemma planck_dims_dims_of (cl ct cm hl ht hm gl gt gm tl tt tm : Z) :
  planck_dims (dims_of cl ct cm) (dims_of hl ht hm) (dims_of gl gt gm)
              (dims_of tl tt tm)
  = item0 (solve [equation_of cl hl gl tl; equation_of ct ht gt tt;
                  equation_of cm hm gm tm] [i; j; k]).
Proof. unfold planck_dims. now rewrite comprehension_dims_of. Qed.

Lemma independent_solution (cl ct cm hl ht hm gl gt gm tl tt tm : Z) :
  ~ det3 (inject_Z cl) (inject_Z ct) (inject_Z cm)
         (inject_Z hl) (inject_Z ht) (inject_Z hm)
         (inject_Z gl) (inject_Z gt) (inject_Z gm) == 0 ->
  exists vi vj vk,
    exponents (planck_dims (dims_of cl ct cm) (dims_of hl ht hm)
                           (dims_of gl gt gm) (dims_of tl tt tm))
    = inr (Number vi, Number vj, Number vk) /\
    forall wi wj wk,
      balances (dims_of cl ct cm) (dims_of hl ht hm) (dims_of gl gt gm)
               (dims_of tl tt tm) wi wj wk <->
      wi == vi /\ wj == vj /\ wk == vk.
Proof.
  intros Hdet.
  assert (HdetC :
    ~ det3 (coeff (equation_of cl hl gl tl) i)
           (coeff (equation_of ct ht gt tt) i)
           (coeff (equation_of cm hm gm tm) i)
           (coeff (equation_of cl hl gl tl) j)
           (coeff (equation_of ct ht gt tt) j)
           (coeff (equation_of cm hm gm tm) j)
           (coeff (equation_of cl hl gl tl) k)
           (coeff (equation_of ct ht gt tt) k)
           (coeff (equation_of cm hm gm tm) k) == 0).
  { destruct (coeff_equation_of cl hl gl tl) as (E1 & E2 & E3).
    destruct (coeff_equation_of ct ht gt tt) as (E4 & E5 & E6).
    destruct (coeff_equation_of cm hm gm tm) as (E7 & E8 & E9).
    now rewrite E1, E2, E3, E4, E5, E6, E7, E8, E9. }
  destruct (cramer _ _ _ _ _ _ _ _ _ (inject_Z tl) (inject_Z tt)
                   (inject_Z tm) Hdet) as (xi & xj & xk & X1 & X2 & X3).
  destruct (independent_solve _ _ _ HdetC) as (vi & vj & vk & Hs & Hiff).
  { exists xi, xj, xk.
    intros e [<-|[<-|[<-|[]]]]; rewrite eval_equation_of; assumption. }
  exists vi, vj, vk. split.
  - rewrite planck_dims_dims_of, Hs. reflexivity.
  - intros wi wj wk. rewrite balances_dims_of. apply Hiff.
Qed.

(** ** The dictionary describes the solutions of the system *)

Lemma eval_number (e : expr) (vi vj vk : Q) :
  is_number e = true -> eval e vi vj vk == constant e.
Proof.
  intros H. rewrite eval_coeff.
  rewrite (is_number_coeff e i H), (is_number_coeff e j H),
          (is_number_coeff e k H).
  ring.
Qed.

Lemma preprocess_solves (f f' : list expr) (vi vj vk : Q) :
  preprocess f = Some f' -> (solves f vi vj vk <-> solves f' vi vj vk).
Proof.
  revert f'. induction f as [|fi rest IH]; simpl; intros f' H.
  - injection H as <-. reflexivity.
  - destruct (is_number fi) eqn:Hn.
    + destruct (is_zero (constant fi)) eqn:Hz; [|discriminate].
      apply is_zero_true in Hz. rewrite <- (IH f' H). split.
      * intros Hs e He. apply Hs. now right.
      * intros Hs e [<-|He]; [|now apply Hs].
        now rewrite eval_number, Hz.
    + destruct (preprocess rest) as [rest'|]; [|discriminate].
      injection H as <-. specialize (IH rest' eq_refl). split.
      * intros Hs e [<-|He]; [apply Hs; now left|].
        apply (proj1 IH); [|exact He]. intros e' He'. apply Hs. now right.
      * intros Hs e [<-|He]; [apply Hs; now left|].
        apply (proj2 IH); [|exact He]. intros e' He'. apply Hs. now right.
Qed.

Lemma preprocess_None (f : list expr) (vi vj vk : Q) :
  preprocess f = None -> ~ solves f vi vj vk.
Proof.
  induction f as [|fi rest IH]; simpl; [discriminate|].
  intros H Hs. destruct (is_number fi) eqn:Hn.
  - destruct (is_zero (constant fi)) eqn:Hz.
    + apply (IH H). intros e He. apply Hs. now right.
    + apply is_zero_false in Hz. apply Hz.
      rewrite <- (eval_number fi vi vj vk Hn). apply Hs. now left.
  - destruct (preprocess rest); [discriminate|].
    apply (IH eq_refl). intros e He. apply Hs. now right.
Qed.

Lemma rref_solves (f : list expr) (vi vj vk : Q) :
  solves f vi vj vk <-> solves (all_rows (rref f [i; j; k])) vi vj vk.
Proof.
  destruct (rref_reduced f) as [_ _ _ _ Hpspan Hrspan]. split.
  - intros Hs x Hx. apply in_app_or in Hx. destruct Hx as [Hx|Hx].
    + apply in_map_iff in Hx. destruct Hx as ([s p] & <- & Hsp).
      apply (span_solves f); [now apply (Hpspan s)|exact Hs].
    + apply (span_solves f); [now apply Hrspan|exact Hs].
  - intros Hs e He.
    apply (span_solves (all_rows (rref f [i; j; k]))); [|exact Hs].
    now apply rref_covers.
Qed.

Lemma eval_Symbol (s : symbol) (vi vj vk : Q) :
  eval (Symbol s) vi vj vk == value vi vj vk s.
Proof. destruct s; unfold eval; simpl; ring. Qed.

Lemma satisfies_solved (ps : list (symbol * expr)) (vi vj vk : Q) :
  satisfies (map solved ps) vi vj vk <->
  forall s p, In (s, p) ps -> eval p vi vj vk == 0.
Proof.
  split.
  - intros H s p Hsp.
    assert (Hin : In (s, Sub (Symbol s) p) (map solved ps)).
    { apply in_map_iff. now exists (s, p). }
    specialize (H _ _ Hin). rewrite eval_Sub, eval_Symbol in H. Lqa.lra.
  - intros H s e Hse. apply in_map_iff in Hse.
    destruct Hse as ([s' p] & Heq & Hsp). unfold solved in Heq.
    simpl in Heq. injection Heq as <- <-.
    rewrite eval_Sub, eval_Symbol, (H _ _ Hsp). ring.
Qed.

(** A dictionary that [solve] returns describes exactly the solutions of
    the system. *)
Lemma solve_sound (f : list expr) (d : dict symbol expr) (vi vj vk : Q) :
  solve f [i; j; k] = [d] ->
  (solves f vi vj vk <-> satisfies d vi vj vk).
Proof.
  unfold solve.
  destruct (preprocess f) as [[|r f']|] eqn:Hp; try discriminate.
  destruct (consistent _) eqn:Hc; [|discriminate].
  intros H. injection H as <-.
  rewrite (preprocess_solves _ _ vi vj vk Hp), rref_solves, satisfies_solved.
  set (t := rref (r :: f') [i; j; k]) in *.
  destruct (rref_reduced (r :: f')) as [_ _ _ Hrow _ _]. fold t in Hrow.
  split.
  - intros Hs s p Hsp. apply Hs. apply in_or_app. left.
    apply in_map_iff. now exists (s, p).
  - intros Hs x Hx. apply in_app_or in Hx. destruct Hx as [Hx|Hx].
    + apply in_map_iff in Hx. destruct Hx as ([s p] & <- & Hsp).
      now apply (Hs s).
    + rewrite eval_coeff.
      rewrite (Hrow x i Hx), (Hrow x j Hx), (Hrow x k Hx) by (simpl; auto).
      unfold consistent in Hc. rewrite forallb_forall in Hc.
      specialize (Hc x Hx). apply is_zero_true in Hc. rewrite Hc. ring.
Qed.

(** When [solve] returns no dictionary the system has no solution, unless
    it holds no equation at all beyond 0 = 0. *)
Lemma solve_empty (f : list expr) (vi vj vk : Q) :
  solve f [i; j; k] = [] ->
  ~ solves f vi vj vk \/ preprocess f = Some [].
Proof.
  unfold solve.
  destruct (preprocess f) as [[|r f']|] eqn:Hp.
  - now right.
  - destruct (consistent _) eqn:Hc; [discriminate|]. intros _. left.
    rewrite (preprocess_solves _ _ vi vj vk Hp). intros Hs.
    set (t := rref (r :: f') [i; j; k]) in *.
    destruct (rref_reduced (r :: f')) as [_ _ _ Hrow _ Hrspan].
    fold t in Hrow, Hrspan.
    assert (Hall : forallb (fun r => is_zero (constant r)) (rows t) = true).
    { apply forallb_forall. intros x Hx. apply is_zero_true.
      pose proof (span_solves _ _ _ _ _ (Hrspan x Hx) Hs) as Zx.
      rewrite eval_coeff in Zx.
      rewrite (Hrow x i Hx), (Hrow x j Hx), (Hrow x k Hx) in Zx
        by (simpl; auto).
      Lqa.lra. }
    unfold consistent in Hc. congruence.
  - intros _. left. now apply preprocess_None.
Qed.

(** C7, as the code has it. Independence of the three dimension vectors
    is never tested and there is no DegenerateSystem error. When the
    vectors are independent (non-zero determinant) the three exponents
    read off the solution are numbers, and they are the only triple that
    balances the dimensions. When they are dependent no exponent triple
    is produced: the cell stops with Python's IndexError (the list of
    solutions is empty) or KeyError (the exponent of an undetermined
    symbol is looked up). *)
Theorem independence_decides_outcome
        (cl ct cm hl ht hm gl gt gm tl tt tm : Z) :
  let run :=
    exponents (planck_dims (dims_of cl ct cm) (dims_of hl ht hm)
                           (dims_of gl gt gm) (dims_of tl tt tm)) in
  let det :=
    det3 (inject_Z cl) (inject_Z ct) (inject_Z cm)
         (inject_Z hl) (inject_Z ht) (inject_Z hm)
         (inject_Z gl) (inject_Z gt) (inject_Z gm) in
  (~ det == 0 ->
   exists vi vj vk,
     run = inr (Number vi, Number vj, Number vk) /\
     forall wi wj wk,
       balances (dims_of cl ct cm) (dims_of hl ht hm) (dims_of gl gt gm)
                (dims_of tl tt tm) wi wj wk <->
       wi == vi /\ wj == vj /\ wk == vk) /\
  (det == 0 -> run = inl IndexError \/ run = inl KeyError).
Proof.
  intros run det. split.
  - apply independent_solution.
  - intros Hdet. destruct run as [[]|[[e_i e_j] e_k]] eqn:Hrun; auto.
    exfalso. exact (exponents_det _ _ _ _ _ _ _ _ _ _ _ _ _ _ _ Hrun Hdet).
Qed.

(** Both cases of C7 occur: c, hbar and G of the notebook are independent
    and the time exponents come out as numbers; with G replaced by
    c + hbar the vectors are dependent and the cell stops with an
    exception. *)
Lemma independence_decides_outcome_witness :
  (~ det3 1 (-1) 0 2 (-1) 1 3 (-2) (-1) == 0 /\
   exists vi vj vk,
     exponents (planck_dims (dims_of 1 (-1) 0) (dims_of 2 (-1) 1)
                            (dims_of 3 (-2) (-1)) (dims_of 0 1 0))
     = inr (Number vi, Number vj, Number vk)) /\
  (det3 0 1 0 2 (-1) 1 2 0 1 == 0 /\
   let run := exponents (planck_dims (dims_of 0 1 0) (dims_of 2 (-1) 1)
                                     (dims_of 2 0 1) (dims_of 0 1 0)) in
   run = inl IndexError \/ run = inl KeyError).
Proof.
  split.
  - assert (Hdet : ~ det3 1 (-1) 0 2 (-1) 1 3 (-2) (-1) == 0)
      by (vm_compute; discriminate).
    split; [exact Hdet|].
    destruct (proj1 (independence_decides_outcome
                       1 (-1) 0 2 (-1) 1 3 (-2) (-1) 0 1 0) Hdet)
      as (vi & vj & vk & Hrun & _).
    now exists vi, vj, vk.
  - assert (Hdet : det3 0 1 0 2 (-1) 1 2 0 1 == 0) by (vm_compute; reflexivity).
    split; [exact Hdet|].
    exact (proj2 (independence_decides_outcome
                    0 1 0 2 (-1) 1 2 0 1 0 1 0) Hdet).
Defined.

(** C7 as stated fails: G = c + hbar makes the vectors c = (0,1,0),
    hbar = (2,-1,1), G = (2,0,1) dependent, and for the time dimension
    the solver line returns, without any error, the dictionary
    {i: 1 - k, j: -k}, which leaves k undetermined; the cell stops only
    later, with the KeyError of the lookup of k. *)
Lemma dependent_vectors_solved_without_error :
  det3 0 1 0 2 (-1) 1 2 0 1 == 0 /\
  planck_dims (dims_of 0 1 0) (dims_of 2 (-1) 1) (dims_of 2 0 1)
              (dims_of 0 1 0)
  = inr [(i, Expr 0 0 (-1) 1); (j, Expr 0 0 (-1) 0)] /\
  exponents (planck_dims (dims_of 0 1 0) (dims_of 2 (-1) 1) (dims_of 2 0 1)
                         (dims_of 0 1 0))
  = inl KeyError.
Proof. repeat split; vm_compute; reflexivity. Qed.

(** ** The two Planck units of the notebook *)

Lemma balances_time (vi vj vk : Q) :
  balances c_dims hbar_dims G_dims T_dims vi vj vk <->
  vi == -5 # 2 /\ vj == 1 # 2 /\ vk == 1 # 2.
Proof.
  split.
  - intros H.
    pose proof (H L 1 2 3 0 eq_refl eq_refl eq_refl eq_refl)%Z as HL.
    pose proof (H T (-1) (-1) (-2) 1 eq_refl eq_refl eq_refl eq_refl)%Z as HT.
    pose proof (H M 0 1 (-1) 0 eq_refl eq_refl eq_refl eq_refl)%Z as HM.
    unfold inject_Z in HL, HT, HM. repeat split; Lqa.lra.
  - intros (Hi & Hj & Hk) x c_x hbar_x G_x target_x Hc Hh HG Ht.
    destruct x; read_dims Hc; unfold inject_Z; Lqa.lra.
Qed.

Lemma balances_length (vi vj vk : Q) :
  balances c_dims hbar_dims G_dims L_dims vi vj vk <->
  vi == -3 # 2 /\ vj == 1 # 2 /\ vk == 1 # 2.
Proof.
  split.
  - intros H.
    pose proof (H L 1 2 3 1 eq_refl eq_refl eq_refl eq_refl)%Z as HL.
    pose proof (H T (-1) (-1) (-2) 0 eq_refl eq_refl eq_refl eq_refl)%Z as HT.
    pose proof (H M 0 1 (-1) 0 eq_refl eq_refl eq_refl eq_refl)%Z as HM.
    unfold inject_Z in HL, HT, HM. repeat split; Lqa.lra.
  - intros (Hi & Hj & Hk) x c_x hbar_x G_x target_x Hc Hh HG Ht.
    destruct x; read_dims Hc; unfold inject_Z; Lqa.lra.
Qed.

Lemma t_p_exponents :
  exponents t_p_dims
  = inr (Number (-5 # 2), Number (1 # 2), Number (1 # 2)).
Proof. vm_compute. reflexivity. Qed.

Lemma l_p_exponents :
  exponents l_p_dims
  = inr (Number (-3 # 2), Number (1 # 2), Number (1 # 2)).
Proof. vm_compute. reflexivity. Qed.

(** C1. With c = (1,-1,0), hbar = (2,-1,1), G = (3,-2,-1) the solver
    returns (-5/2, 1/2, 1/2) for the time dimension (0,1,0) and
    (-3/2, 1/2, 1/2) for the length dimension (1,0,0), and each triple is
    the only one that satisfies i*d_c + j*d_hbar + k*d_G = d_target. *)
Theorem planck_exponents :
  exponents t_p_dims
  = inr (Number (-5 # 2), Number (1 # 2), Number (1 # 2)) /\
  exponents l_p_dims
  = inr (Number (-3 # 2), Number (1 # 2), Number (1 # 2)) /\
  (forall vi vj vk,
     balances c_dims hbar_dims G_dims T_dims vi vj vk <->
     vi == -5 # 2 /\ vj == 1 # 2 /\ vk == 1 # 2) /\
  (forall vi vj vk,
     balances c_dims hbar_dims G_dims L_dims vi vj vk <->
     vi == -3 # 2 /\ vj == 1 # 2 /\ vk == 1 # 2).
Proof.
  split; [exact t_p_exponents|].
  split; [exact l_p_exponents|].
  split; [exact balances_time | exact balances_length].
Qed.

(** ** Missing keys *)

Lemma getitem_cases (d : dims) (x : dimension) :
  getitem dimension_eqb d x = inl KeyError \/
  exists v, getitem dimension_eqb d x = inr v.
Proof.
  induction d as [|[x' v] rest IH]; simpl; [now left|].
  destruct (dimension_eqb x' x); [right; now exists v|exact IH].
Qed.

Lemma equation_cases (c_dims hbar_dims G_dims target : dims) (x : dimension) :
  (equation c_dims hbar_dims G_dims target x = inl KeyError /\
   (getitem dimension_eqb c_dims x = inl KeyError \/
    getitem dimension_eqb hbar_dims x = inl KeyError \/
    getitem dimension_eqb G_dims x = inl KeyError \/
    getitem dimension_eqb target x = inl KeyError)) \/
  exists c_x hbar_x G_x target_x,
    getitem dimension_eqb c_dims x = inr c_x /\
    getitem dimension_eqb hbar_dims x = inr hbar_x /\
    getitem dimension_eqb G_dims x = inr G_x /\
    getitem dimension_eqb target x = inr target_x /\
    equation c_dims hbar_dims G_dims target x
    = inr (equation_of c_x hbar_x G_x target_x).
Proof.
  unfold equation.
  destruct (getitem_cases c_dims x) as [Hc|[c_x Hc]]; rewrite Hc;
    [left; simpl; tauto|].
  destruct (getitem_cases hbar_dims x) as [Hh|[hbar_x Hh]]; rewrite Hh;
    [left; simpl; tauto|].
  destruct (getitem_cases G_dims x) as [Hg|[G_x Hg]]; rewrite Hg;
    [left; simpl; tauto|].
  destruct (getitem_cases target x) as [Ht|[target_x Ht]]; rewrite Ht;
    [left; simpl; tauto|].
  right. exists c_x, hbar_x, G_x, target_x. simpl. tauto.
Qed.

Lemma solve_at_most_one (f : list expr) :
  solve f [i; j; k] = [] \/ exists d, solve f [i; j; k] = [d].
Proof.
  unfold solve. destruct (preprocess f) as [[|r f']|]; auto.
  destruct (consistent _); eauto.
Qed.

Lemma item0_solve_not_KeyError (f : list expr) :
  item0 (solve f [i; j; k]) <> inl KeyError.
Proof.
  destruct (solve_at_most_one f) as [->|[d ->]]; simpl; discriminate.
Qed.

(** X1. The solver line raises KeyError exactly when one of the four
    dictionaries has no entry for one of the base dimensions. *)
Theorem missing_dimension_raises_KeyError
        (c_dims hbar_dims G_dims target : dims) :
  planck_dims c_dims hbar_dims G_dims target = inl KeyError <->
  exists x,
    getitem dimension_eqb c_dims x = inl KeyError \/
    getitem dimension_eqb hbar_dims x = inl KeyError \/
    getitem dimension_eqb G_dims x = inl KeyError \/
    getitem dimension_eqb target x = inl KeyError.
Proof.
  unfold planck_dims. simpl.
  destruct (equation_cases c_dims hbar_dims G_dims target L)
    as [[EL HL]|(cl & hl & gl & tl & CL & HL & GL & TL & EL)];
    rewrite EL; cbv beta iota delta [bind ret].
  { split; [intros _; now exists L|reflexivity]. }
  destruct (equation_cases c_dims hbar_dims G_dims target T)
    as [[ET HT]|(ct & ht & gt & tt & CT & HT & GT & TT & ET)];
    rewrite ET; cbv beta iota delta [bind ret].
  { split; [intros _; now exists T|reflexivity]. }
  destruct (equation_cases c_dims hbar_dims G_dims target M)
    as [[EM HM]|(cm & hm & gm & tm & CM & HM & GM & TM & EM)];
    rewrite EM; cbv beta iota delta [bind ret].
  { split; [intros _; now exists M|reflexivity]. }
  split.
  - intros H. now apply item0_solve_not_KeyError in H.
  - intros [[] H]; fold L T M in *; exfalso;
      [rewrite CL, HL, GL, TL in H|rewrite CT, HT, GT, TT in H
      |rewrite CM, HM, GM, TM in H];
      intuition discriminate.
Qed.

(** ** What the returned dictionary says *)

Lemma planck_dims_inv (c_dims hbar_dims G_dims target : dims)
      (r : result (dict symbol expr)) :
  planck_dims c_dims hbar_dims G_dims target = r ->
  r = inl KeyError \/
  exists f,
    comprehension (equation c_dims hbar_dims G_dims target) [L; T; M]
    = inr f /\
    r = item0 (solve f [i; j; k]) /\
    forall vi vj vk,
      balances c_dims hbar_dims G_dims target vi vj vk <-> solves f vi vj vk.
Proof.
  intros <-. unfold planck_dims. simpl.
  destruct (equation_cases c_dims hbar_dims G_dims target L)
    as [[EL _]|(cl & hl & gl & tl & CL & HL & GL & TL & EL)];
    rewrite EL; cbv beta iota delta [bind ret]; [now left|].
  destruct (equation_cases c_dims hbar_dims G_dims target T)
    as [[ET _]|(ct & ht & gt & tt & CT & HT & GT & TT & ET)];
    rewrite ET; cbv beta iota delta [bind ret]; [now left|].
  destruct (equation_cases c_dims hbar_dims G_dims target M)
    as [[EM _]|(cm & hm & gm & tm & CM & HM & GM & TM & EM)];
    rewrite EM; cbv beta iota delta [bind ret]; [now left|].
  right. eexists. split; [reflexivity|]. split; [reflexivity|].
  intros vi vj vk. split.
  - intros Hb e [<-|[<-|[<-|[]]]]; rewrite eval_equation_of.
    + rewrite (Hb L _ _ _ _ CL HL GL TL). ring.
    + rewrite (Hb T _ _ _ _ CT HT GT TT). ring.
    + rewrite (Hb M _ _ _ _ CM HM GM TM). ring.
  - intros Hs x c_x hbar_x G_x target_x Hc Hh Hg Ht.
    destruct x; fold L T M in *.
    + rewrite CL in Hc; rewrite HL in Hh; rewrite GL in Hg;
        rewrite TL in Ht.
      injection Hc as <-. injection Hh as <-. injection Hg as <-.
      injection Ht as <-.
      assert (Z0 := Hs _ (or_introl eq_refl)).
      rewrite eval_equation_of in Z0. Lqa.lra.
    + rewrite CT in Hc; rewrite HT in Hh; rewrite GT in Hg;
        rewrite TT in Ht.
      injection Hc as <-. injection Hh as <-. injection Hg as <-.
      injection Ht as <-.
      assert (Z0 := Hs _ (or_intror (or_introl eq_refl))).
      rewrite eval_equation_of in Z0. Lqa.lra.
    + rewrite CM in Hc; rewrite HM in Hh; rewrite GM in Hg;
        rewrite TM in Ht.
      injection Hc as <-. injection Hh as <-. injection Hg as <-.
      injection Ht as <-.
      assert (Z0 := Hs _ (or_intror (or_intror (or_introl eq_refl)))).
      rewrite eval_equation_of in Z0. Lqa.lra.
Qed.

Lemma planck_dims_solve (c_dims hbar_dims G_dims target : dims)
      (d : dict symbol expr) :
  planck_dims c_dims hbar_dims G_dims target = inr d ->
  exists f,
    solve f [i; j; k] = [d] /\
    forall vi vj vk,
      balances c_dims hbar_dims G_dims target vi vj vk <-> solves f vi vj vk.
Proof.
  intros H. destruct (planck_dims_inv _ _ _ _ _ H) as [?|(f & _ & Hd & Hb)];
    [discriminate|].
  exists f. split; [|exact Hb].
  destruct (solve_at_most_one f) as [E|[d' E]]; rewrite E in Hd;
    simpl in Hd; [discriminate|].
  now injection Hd as ->.
Qed.

(** X2. Whatever dictionary the solver line returns, the exponents that
    balance the dimensions are exactly the ones that agree with it: the
    dictionary loses no solution and adds none. *)
Theorem solver_line_is_sound (c_dims hbar_dims G_dims target : dims)
        (d : dict symbol expr) (vi vj vk : Q) :
  planck_dims c_dims hbar_dims G_dims target = inr d ->
  (balances c_dims hbar_dims G_dims target vi vj vk <->
   satisfies d vi vj vk).
Proof.
  intros H. destruct (planck_dims_solve _ _ _ _ _ H) as (f & Hs & Hb).
  rewrite Hb. now apply solve_sound.
Qed.

Lemma solver_line_is_sound_witness :
  planck_dims (dims_of 0 1 0) (dims_of 2 (-1) 1) (dims_of 2 0 1)
              (dims_of 0 1 0)
  = inr [(i, Expr 0 0 (-1) 1); (j, Expr 0 0 (-1) 0)] /\
  (balances (dims_of 0 1 0) (dims_of 2 (-1) 1) (dims_of 2 0 1)
            (dims_of 0 1 0) (-2) (-3) 3 <->
   satisfies [(i, Expr 0 0 (-1) 1); (j, Expr 0 0 (-1) 0)] (-2) (-3) 3).
Proof.
  assert (H : planck_dims (dims_of 0 1 0) (dims_of 2 (-1) 1) (dims_of 2 0 1)
                          (dims_of 0 1 0)
              = inr [(i, Expr 0 0 (-1) 1); (j, Expr 0 0 (-1) 0)])
    by (vm_compute; reflexivity).
  split; [exact H|].
  exact (solver_line_is_sound _ _ _ _ _ (-2) (-3) 3 H).
Defined.

(** X3. The solver line raises IndexError only when no exponents balance the
    dimensions, or when any exponents do (every equation reads 0 = 0). *)
Theorem IndexError_means_no_exponents
        (c_dims hbar_dims G_dims target : dims) :
  planck_dims c_dims hbar_dims G_dims target = inl IndexError ->
  (forall vi vj vk, ~ balances c_dims hbar_dims G_dims target vi vj vk) \/
  (forall vi vj vk, balances c_dims hbar_dims G_dims target vi vj vk).
Proof.
  intros H. destruct (planck_dims_inv _ _ _ _ _ H) as [?|(f & _ & Hd & Hb)];
    [discriminate|].
  assert (Hs : solve f [i; j; k] = []).
  { destruct (solve_at_most_one f) as [E|[d E]]; [exact E|].
    rewrite E in Hd. discriminate. }
  destruct (preprocess f) as [[|r f']|] eqn:Hp.
  - right. intros vi vj vk. rewrite Hb, (preprocess_solves _ _ _ _ _ Hp).
    intros e [].
  - left. intros vi vj vk. rewrite Hb.
    destruct (solve_empty f vi vj vk Hs) as [Hn|Hn]; [exact Hn|].
    congruence.
  - left. intros vi vj vk. rewrite Hb. now apply preprocess_None.
Qed.

Lemma IndexError_means_no_exponents_witness :
  planck_dims (dims_of 0 1 0) (dims_of 2 (-1) 1) (dims_of 2 0 1)
              (dims_of 1 0 0) = inl IndexError /\
  ((forall vi vj vk,
      ~ balances (dims_of 0 1 0) (dims_of 2 (-1) 1) (dims_of 2 0 1)
                 (dims_of 1 0 0) vi vj vk) \/
   (forall vi vj vk,
      balances (dims_of 0 1 0) (dims_of 2 (-1) 1) (dims_of 2 0 1)
               (dims_of 1 0 0) vi vj vk)).
Proof.
  assert (H : planck_dims (dims_of 0 1 0) (dims_of 2 (-1) 1) (dims_of 2 0 1)
                          (dims_of 1 0 0) = inl IndexError)
    by (vm_compute; reflexivity).
  split; [exact H|].
  exact (IndexError_means_no_exponents _ _ _ _ H).
Defined.

(** ** The shape of the returned dictionary *)

Lemma reduce_column_keys (t : tableau) (s : symbol) :
  map fst (pivots (reduce_column t s)) = map fst (pivots t) \/
  map fst (pivots (reduce_column t s)) = map fst (pivots t) ++ [s].
Proof.
  destruct (reduce_column_pivots t s) as [->|[p ->]]; [now left|right].
  rewrite map_app, map_map. reflexivity.
Qed.

Lemma rref_keys (f : list expr) :
  NoDup (map fst (pivots (rref f [i; j; k]))).
Proof.
  unfold rref; simpl.
  set (t0 := Tableau [] f).
  assert (H0 : map fst (pivots t0) = []) by reflexivity.
  destruct (reduce_column_keys t0 i) as [H1|H1]; rewrite H0 in H1;
    destruct (reduce_column_keys (reduce_column t0 i) j) as [H2|H2];
    rewrite H1 in H2;
    destruct (reduce_column_keys (reduce_column (reduce_column t0 i) j) k)
      as [H3|H3];
    rewrite H2 in H3; rewrite H3; simpl;
    repeat constructor; simpl; intuition discriminate.
Qed.

Lemma map_fst_solved (ps : list (symbol * expr)) :
  map fst (map solved ps) = map fst ps.
Proof. rewrite map_map. reflexivity. Qed.

Lemma solve_inv (f : list expr) (d : dict symbol expr) :
  solve f [i; j; k] = [d] ->
  exists f', d = map solved (pivots (rref f' [i; j; k])).
Proof.
  unfold solve. destruct (preprocess f) as [[|r f']|]; try discriminate.
  destruct (consistent _); [|discriminate].
  intros H. injection H as <-. now exists (r :: f').
Qed.

Lemma coeff_Symbol_same (s : symbol) : coeff (Symbol s) s == 1.
Proof. destruct s; reflexivity. Qed.

Lemma coeff_Symbol_other (s s' : symbol) : s' <> s -> coeff (Symbol s) s' == 0.
Proof. destruct s, s'; intros H; try reflexivity; now destruct H. Qed.

(** X4. The dictionary that the solver line returns is in solved form: no
    symbol is given twice, and no symbol that the dictionary gives occurs
    in any of its values, which are written with the free symbols only. *)
Theorem returned_dictionary_is_solved
        (c_dims hbar_dims G_dims target : dims) (d : dict symbol expr) :
  planck_dims c_dims hbar_dims G_dims target = inr d ->
  NoDup (map fst d) /\
  forall s e s' e', In (s, e) d -> In (s', e') d -> coeff e s' == 0.
Proof.
  intros H. destruct (planck_dims_solve _ _ _ _ _ H) as (f & Hs & _).
  destruct (solve_inv _ _ Hs) as (f' & ->). split.
  - rewrite map_fst_solved. apply rref_keys.
  - destruct (rref_reduced f') as [_ Hone Hzero _ _ _].
    intros s e s' e' He He'.
    apply in_map_iff in He. destruct He as ([s0 p] & Heq & Hp).
    apply in_map_iff in He'. destruct He' as ([s0' p'] & Heq' & Hp').
    unfold solved in Heq, Heq'. simpl in Heq, Heq'.
    injection Heq as <- <-. injection Heq' as <- _.
    rewrite coeff_Sub.
    destruct (symbol_eqb s0' s0) eqn:Hss.
    + apply symbol_eqb_eq in Hss. subst s0'.
      rewrite coeff_Symbol_same, (Hone _ _ Hp). ring.
    + assert (Hne : s0' <> s0).
      { intros ->. destruct s0; discriminate. }
      rewrite (coeff_Symbol_other _ _ Hne), (Hzero _ _ _ _ Hp Hp' Hne).
      ring.
Qed.

Lemma returned_dictionary_is_solved_witness :
  planck_dims (dims_of 0 1 0) (dims_of 2 (-1) 1) (dims_of 2 0 1)
              (dims_of 0 1 0)
  = inr [(i, Expr 0 0 (-1) 1); (j, Expr 0 0 (-1) 0)] /\
  NoDup (map fst [(i, Expr 0 0 (-1) 1); (j, Expr 0 0 (-1) 0)]) /\
  forall s e s' e',
    In (s, e) [(i, Expr 0 0 (-1) 1); (j, Expr 0 0 (-1) 0)] ->
    In (s', e') [(i, Expr 0 0 (-1) 1); (j, Expr 0 0 (-1) 0)] ->
    coeff e s' == 0.
Proof.
  assert (H : planck_dims (dims_of 0 1 0) (dims_of 2 (-1) 1) (dims_of 2 0 1)
                          (dims_of 0 1 0)
              = inr [(i, Expr 0 0 (-1) 1); (j, Expr 0 0 (-1) 0)])
    by (vm_compute; reflexivity).
  split; [exact H|].
  exact (returned_dictionary_is_solved _ _ _ _ _ H).
Defined.

(** ** The exponents of any dimension *)

Lemma notebook_constants (target : dims) :
  planck_dims c_dims hbar_dims G_dims target
  = planck_dims (dims_of 1 (-1) 0) (dims_of 2 (-1) 1) (dims_of 3 (-2) (-1))
                target.
Proof. reflexivity. Qed.

Lemma notebook_balances (target : dims) (vi vj vk : Q) :
  balances c_dims hbar_dims G_dims target vi vj vk <->
  balances (dims_of 1 (-1) 0) (dims_of 2 (-1) 1) (dims_of 3 (-2) (-1))
           target vi vj vk.
Proof.
  unfold balances. split; intros H x c_x hbar_x G_x target_x Hc Hh Hg Ht;
    apply (H x); try assumption; destruct x; exact Hg.
Qed.

(** X5. With the notebook's c, hbar and G the solver line gives exponents for
    every target dimension L^l T^t M^m, not only for the time and the
    length: (m - 3l - 5t)/2 for c, (l + t + m)/2 for hbar and
    (l + t - m)/2 for G, and no other exponents balance. *)
Theorem exponents_of_any_dimension (l t m : Z) :
  exists vi vj vk,
    exponents (planck_dims c_dims hbar_dims G_dims (dims_of l t m))
    = inr (Number vi, Number vj, Number vk) /\
    vi == (inject_Z m - 3 * inject_Z l - 5 * inject_Z t) / 2 /\
    vj == (inject_Z l + inject_Z t + inject_Z m) / 2 /\
    vk == (inject_Z l + inject_Z t - inject_Z m) / 2 /\
    forall wi wj wk,
      balances c_dims hbar_dims G_dims (dims_of l t m) wi wj wk <->
      wi == vi /\ wj == vj /\ wk == vk.
Proof.
  destruct (independent_solution 1 (-1) 0 2 (-1) 1 3 (-2) (-1) l t m)
    as (vi & vj & vk & Hrun & Hiff); [vm_compute; discriminate|].
  exists vi, vj, vk. rewrite notebook_constants. split; [exact Hrun|].
  assert (Hv : (inject_Z m - 3 * inject_Z l - 5 * inject_Z t) / 2 == vi /\
               (inject_Z l + inject_Z t + inject_Z m) / 2 == vj /\
               (inject_Z l + inject_Z t - inject_Z m) / 2 == vk).
  { apply Hiff. apply balances_dims_of.
    intros e [<-|[<-|[<-|[]]]]; rewrite eval_equation_of;
      change (inject_Z 1) with 1; change (inject_Z 2) with 2;
      change (inject_Z 3) with 3; change (inject_Z 0) with 0;
      change (inject_Z (-1)) with (-1); change (inject_Z (-2)) with (-2);
      field. }
  destruct Hv as (Hi & Hj & Hk).
  split; [now symmetry|]. split; [now symmetry|]. split; [now symmetry|].
  intros wi wj wk. rewrite notebook_balances. apply Hiff.
Qed.

End DimensionalTheory.

(** * Properties of the expansion rate on binary64 floats *)

Module FriedmannFloatTheory.

Import FriedmannFloat.

#[local] Set Warnings "-inexact-float".

Open Scope float_scope.

Ltac evaluate_list :=
  match goal with
  | |- Forall ?P ?l => let l' := eval vm_compute in l in change (Forall P l')
  end.

(** A matter density of 1e-300 or of 1e-100 is rounded away: at every
    sample point, whatever admissible value the power takes, the cell's
    [E] returns 1.0, as it does for no matter at all. *)
Lemma tiny_density_at_the_nodes :
  Forall (fun a => Forall (fun p => E 1e-300 a p = inr 1 /\
                                    E 1e-100 a p = inr 1 /\
                                    E 0 a p = inr 1)
                          (pow_candidates a))
         nodes.
Proof.
  unfold nodes.
  repeat (apply Forall_cons; [evaluate_list;
     repeat (apply Forall_cons; [repeat split; vm_compute; reflexivity|]);
     apply Forall_nil|]).
  apply Forall_nil.
Qed.

(** C10 as stated fails: a = 1e-104 lies in (0, 1] and the notebook's
    Omega_m in (0, 1), yet a**-3 overflows there (a thousandth of it
    overflows too) and the call E(a) raises OverflowError. At a = 1e-100
    the power still has a value and E(a) is a float that is at least 1. *)
Lemma E_overflows_near_zero :
  (0 <? 1e-104) = true /\ (1e-104 <=? 1) = true /\
  (0 <? omegam) = true /\ (omegam <? 1) = true /\
  is_infinity (1e-3 / 1e-104 / 1e-104 / 1e-104) = true /\
  Forall (fun p => E omegam 1e-104 p = inl OverflowError)
         (pow_candidates 1e-104) /\
  Forall (fun p => exists e, E omegam 1e-100 p = inr e /\ (1 <=? e) = true)
         (pow_candidates 1e-100).
Proof.
  repeat split; try (vm_compute; reflexivity).
  - evaluate_list. repeat constructor.
  - evaluate_list.
    repeat (apply Forall_cons;
            [eexists; split; vm_compute; reflexivity|]).
    apply Forall_nil.
Qed.

End FriedmannFloatTheory.

(** * Properties of the Friedmann integrator *)

Module FriedmannTheory.

Import Friedmann.
Open Scope R_scope.

(** ** The expansion rate *)

Lemma powerRZ_m3 (a : R) : powerRZ a (-3) = / (a * a * a).
Proof. unfold powerRZ. simpl. now rewrite Rmult_1_r, Rmult_assoc. Qed.

Lemma radicand_lower (om a : R) :
  0 < om < 1 -> 0 < a <= 1 -> 1 - om < om * powerRZ a (-3) + (1 - om).
Proof.
  intros Hom Ha. rewrite powerRZ_m3.
  assert (0 < / (a * a * a)).
  { apply Rinv_0_lt_compat. repeat apply Rmult_lt_0_compat; lra. }
  nra.
Qed.

Lemma E_lower_bound (om a : R) :
  0 < om < 1 -> 0 < a <= 1 -> sqrt (1 - om) < E om a.
Proof.
  intros Hom Ha. unfold E. apply sqrt_lt_1_alt. split; [lra|].
  now apply radicand_lower.
Qed.

Lemma rounded_lower (x y : R) :
  0 <= x -> rounded x y -> (1 - unit_roundoff) * x <= y.
Proof.
  unfold rounded. intros Hx H. rewrite (Rabs_pos_eq x Hx) in H.
  destruct (Rle_or_lt x y) as [Hxy|Hxy].
  - assert (0 < unit_roundoff).
    { unfold unit_roundoff. apply Rinv_0_lt_compat. lra. }
    nra.
  - rewrite Rabs_left in H by lra. lra.
Qed.

(** Exact arithmetic is one of the admissible roundings. *)
Lemma E_is_E_rounded (om a : R) :
  0 < om < 1 -> 0 < a <= 1 -> E_rounded om (E om a).
Proof.
  intros Hom Ha.
  assert (Hz : forall x, rounded x x).
  { intros x. unfold rounded. rewrite Rminus_diag, Rabs_R0.
    apply Rmult_le_pos; [|apply Rabs_pos].
    unfold unit_roundoff. apply Rlt_le, Rinv_0_lt_compat. lra. }
  exists (om * powerRZ a (-3)), (1 - om), (om * powerRZ a (-3) + (1 - om)).
  repeat split; try apply Hz.
  pose proof (radicand_lower om a Hom Ha). lra.
Qed.

Lemma E_rounded_lower (om e : R) :
  0 < om < 1 -> E_rounded om e ->
  0 < (1 - 1e-15) * sqrt (1 - om) <= e.
Proof.
  intros Hom (t & s & r & Ht & Hs & Hr & He).
  assert (Hu : 0 < unit_roundoff < 1e-16 * 2).
  { unfold unit_roundoff. split; [apply Rinv_0_lt_compat; lra|].
    apply Rmult_lt_reg_l with 9007199254740992; [lra|].
    rewrite Rinv_r by lra. lra. }
  set (u := unit_roundoff) in *.
  assert (Hom1 : 0 <= 1 - om) by lra.
  assert (Hs' := rounded_lower _ _ Hom1 Hs). fold u in Hs'.
  assert (Hs0 : 0 < s) by nra.
  assert (Hts : 0 <= t + s) by lra.
  assert (Hr' := rounded_lower _ _ Hts Hr). fold u in Hr'.
  assert (Hr1 : (1 - u) * ((1 - u) * (1 - om)) <= r) by nra.
  assert (Hq : 0 < sqrt (1 - om)) by (apply sqrt_lt_R0; lra).
  assert (Hsq : (1 - u) * sqrt (1 - om) <= sqrt r).
  { replace ((1 - u) * sqrt (1 - om))
      with (sqrt ((1 - u) * (1 - u) * (1 - om))).
    - apply sqrt_le_1_alt. lra.
    - rewrite sqrt_mult by nra. rewrite sqrt_square by lra. reflexivity. }
  assert (Hr0 : 0 <= sqrt r) by apply sqrt_pos.
  assert (He' := rounded_lower _ _ Hr0 He). fold u in He'.
  split; [nra|].
  apply Rle_trans with ((1 - u) * ((1 - u) * sqrt (1 - om))); [nra|].
  apply Rle_trans with ((1 - u) * sqrt r); [|exact He'].
  apply Rmult_le_compat_l; [lra|exact Hsq].
Qed.

(** C10, as the code has it. E is not defined on the whole of (0, 1]:
    the power a**-3 overflows for the smallest a. For every Omega_m in
    (0,1) and every a in [1e-100, 1], where the power has a value, the
    radicand of E(a) is strictly positive, E(a) is bounded below by
    sqrt(1 - Omega_m), which is strictly positive, and neither a*E(a)
    nor a^2*E(a), the denominators of the age and diameter integrands,
    is zero; both integrands are strictly positive reals. Rounding does
    not change this: whatever binary64 arithmetic gives to E(a) is
    positive and at least (1 - 1e-15) sqrt(1 - Omega_m). *)
Theorem E_well_defined (om a : R) :
  0 < om < 1 -> 1e-100 <= a <= 1 ->
  0 < om * powerRZ a (-3) + (1 - om) /\
  0 < sqrt (1 - om) <= E om a /\
  a * E om a <> 0 /\ a ^ 2 * E om a <> 0 /\
  0 < age_integrand om a /\ 0 < diameter_integrand om a /\
  forall e, E_rounded om e -> 0 < (1 - 1e-15) * sqrt (1 - om) <= e.
Proof.
  intros Hom Ha.
  assert (Ha0 : 0 < a <= 1) by lra.
  pose proof (radicand_lower om a Hom Ha0) as Hrad.
  pose proof (E_lower_bound om a Hom Ha0) as HE.
  assert (Hs : 0 < sqrt (1 - om)) by (apply sqrt_lt_R0; lra).
  assert (HaE : 0 < a * E om a) by (apply Rmult_lt_0_compat; lra).
  assert (Ha2E : 0 < a ^ 2 * E om a).
  { apply Rmult_lt_0_compat; [|lra]. apply pow_lt; lra. }
  repeat match goal with |- _ /\ _ => split end; try lra.
  - unfold age_integrand. apply Rdiv_lt_0_compat; lra.
  - unfold diameter_integrand. apply Rdiv_lt_0_compat; lra.
  - intros e He. now apply E_rounded_lower.
Qed.

Lemma E_well_defined_witness :
  0 < 1 / 2 * powerRZ 1 (-3) + (1 - 1 / 2) /\
  0 < sqrt (1 - 1 / 2) <= E (1 / 2) 1 /\
  1 * E (1 / 2) 1 <> 0 /\ 1 ^ 2 * E (1 / 2) 1 <> 0 /\
  0 < age_integrand (1 / 2) 1 /\ 0 < diameter_integrand (1 / 2) 1 /\
  forall e, E_rounded (1 / 2) e -> 0 < (1 - 1e-15) * sqrt (1 - 1 / 2) <= e.
Proof. apply (E_well_defined (1 / 2) 1); lra. Defined.

(** ** Integrals *)

Lemma is_RInt_unique (f : R -> R) (a b I I' : R) :
  is_RInt f a b I -> is_RInt f a b I' -> I = I'.
Proof.
  intros (pr & <-) (pr' & <-). apply RiemannInt_P5.
Qed.

(** The fundamental theorem on a closed interval. *)
Lemma is_RInt_antiderivative (f F : R -> R) (a b : R) :
  a <= b ->
  (forall x, a <= x <= b -> derivable_pt_lim F x (f x)) ->
  (forall x, a <= x <= b -> continuity_pt f x) ->
  is_RInt f a b (F b - F a).
Proof.
  intros Hab HF Hf.
  exists (continuity_implies_RiemannInt Hab Hf).
  rewrite (RiemannInt_P20 Hab (FTC_P1 Hab Hf)).
  assert (HFa : antiderivative f F a b).
  { split; [|exact Hab]. intros x Hx.
    exists (exist _ (f x) (HF x Hx)). reflexivity. }
  destruct (antiderivative_Ucte f _ _ a b (RiemannInt_P29 Hab Hf) HFa)
    as (c & Hc).
  rewrite (Hc b), (Hc a); [ring | split; lra | split; lra].
Qed.

(** The fundamental theorem for an integral that is improper at 0. *)
Lemma is_RInt_0_antiderivative (f F : R -> R) :
  (forall x, 0 < x <= 1 -> derivable_pt_lim F x (f x)) ->
  (forall x, 0 < x <= 1 -> continuity_pt f x) ->
  continuity_pt F 0 ->
  is_RInt_0 f 1 (F 1 - F 0).
Proof.
  intros HF Hf HF0.
  assert (Hx : forall x, 0 < x <= 1 -> is_RInt f x 1 (F 1 - F x)).
  { intros x Hx. apply is_RInt_antiderivative; [lra | |].
    - intros y Hy. apply HF. lra.
    - intros y Hy. apply Hf. lra. }
  split.
  - intros x Hx'. exists (F 1 - F x). now apply Hx.
  - intros eps Heps. destruct (HF0 eps Heps) as (delta & Hdelta & Hcont).
    exists delta. split; [exact Hdelta|].
    intros x Ix Hx0 Hx1 HIx.
    rewrite (is_RInt_unique _ _ _ _ _ HIx (Hx x (conj (proj1 Hx0) Hx1))).
    replace (F 1 - F x - (F 1 - F 0)) with (- (F x - F 0)) by ring.
    rewrite Rabs_Ropp. apply Hcont. split.
    + split; [exact I | lra].
    + simpl. unfold Rdist. rewrite Rminus_0_r, Rabs_pos_eq; lra.
Qed.

Lemma is_RInt_0_unique (f : R -> R) (I I' : R) :
  is_RInt_0 f 1 I -> is_RInt_0 f 1 I' -> I = I'.
Proof.
  intros (Hex & HI) (_ & HI').
  apply cond_eq. intros eps Heps.
  destruct (HI (eps / 2)) as (d & Hd & Hlim); [lra|].
  destruct (HI' (eps / 2)) as (d' & Hd' & Hlim'); [lra|].
  set (x := Rmin (Rmin d d') 1 / 2).
  assert (Hx : 0 < x /\ x < d /\ x < d' /\ x <= 1).
  { unfold x. pose proof (Rmin_l (Rmin d d') 1).
    pose proof (Rmin_r (Rmin d d') 1).
    pose proof (Rmin_l d d'). pose proof (Rmin_r d d').
    assert (0 < Rmin (Rmin d d') 1).
    { repeat apply Rmin_glb_lt; lra. }
    lra. }
  destruct (Hex x) as (Ix & HIx); [lra|].
  pose proof (Hlim x Ix (conj (proj1 Hx) (proj1 (proj2 Hx)))
                   (proj2 (proj2 (proj2 Hx))) HIx) as H1.
  pose proof (Hlim' x Ix (conj (proj1 Hx) (proj1 (proj2 (proj2 Hx))))
                    (proj2 (proj2 (proj2 Hx))) HIx) as H2.
  replace (I - I') with ((Ix - I') - (Ix - I)) by ring.
  apply Rle_lt_trans with (1 := Rabs_triang _ _).
  rewrite Rabs_Ropp. lra.
Qed.

(** ** Change of variable *)

Lemma substitution (h H phi phi' f : R -> R) :
  (forall u, 0 <= u <= 1 -> derivable_pt_lim H u (h u)) ->
  phi 0 = 0 -> phi 1 = 1 ->
  (forall a, 0 < a <= 1 -> 0 <= phi a <= 1) ->
  continuity_pt phi 0 ->
  (forall a, 0 < a <= 1 -> derivable_pt_lim phi a (phi' a)) ->
  (forall a, 0 < a <= 1 -> f a = h (phi a) * phi' a) ->
  (forall a, 0 < a <= 1 -> continuity_pt f a) ->
  is_RInt_0 f 1 (H 1 - H 0).
Proof.
  intros HH H0 H1 Hrange Hphi0 Hphi Hf Hcont.
  replace (H 1 - H 0) with (H (phi 1) - H (phi 0)) by (now rewrite H0, H1).
  apply (is_RInt_0_antiderivative f (fun a => H (phi a))).
  - intros a Ha. rewrite (Hf a Ha).
    apply (derivable_pt_lim_comp phi H a (phi' a) (h (phi a))).
    + now apply Hphi.
    + apply HH. now apply Hrange.
  - exact Hcont.
  - apply (continuity_pt_comp phi H 0 Hphi0).
    rewrite H0. apply derivable_continuous_pt.
    exists (h 0). apply HH. lra.
Qed.

(** An integral over [0, 1] of the substituted integrand is the improper
    integral of the integrand itself. *)
Lemma substitution_is_RInt (h phi phi' f : R -> R) (I : R) :
  (forall u, 0 <= u <= 1 -> continuity_pt h u) ->
  phi 0 = 0 -> phi 1 = 1 ->
  (forall a, 0 < a <= 1 -> 0 <= phi a <= 1) ->
  continuity_pt phi 0 ->
  (forall a, 0 < a <= 1 -> derivable_pt_lim phi a (phi' a)) ->
  (forall a, 0 < a <= 1 -> f a = h (phi a) * phi' a) ->
  (forall a, 0 < a <= 1 -> continuity_pt f a) ->
  is_RInt h 0 1 I -> is_RInt_0 f 1 I.
Proof.
  intros Hh H0 H1 Hrange Hphi0 Hphi Hf Hcont HI.
  destruct (RiemannInt_P30 Rle_0_1 Hh) as (H & HH & _).
  assert (HH' : forall u, 0 <= u <= 1 -> derivable_pt_lim H u (h u)).
  { intros u Hu. destruct (HH u Hu) as (pr & ->).
    now apply (derive_pt_eq_1 H u _ pr). }
  rewrite (is_RInt_unique _ _ _ _ _ HI
             (is_RInt_antiderivative h H 0 1 Rle_0_1 HH' Hh)).
  now apply (substitution h H phi phi' f).
Qed.

(** ** The two integrands after the change of variable *)

Lemma radicand_pos (m : nat) (om u : R) :
  0 < om <= 1 -> om <= om + (1 - om) * u ^ (2 * m).
Proof.
  intros Hom. rewrite pow_mult.
  assert (0 <= (u ^ 2) ^ m) by (apply pow_le, pow2_ge_0).
  nra.
Qed.

Lemma continuity_weight (m : nat) (om u : R) :
  0 < om <= 1 -> continuity_pt (weight (2 * m) om) u.
Proof.
  intros Hom. unfold weight.
  pose proof (radicand_pos m om u Hom) as Hr.
  reg; [lra|].
  apply Rgt_not_eq, sqrt_lt_R0. lra.
Qed.

(** [E] in terms of the square root [s] of [a]. *)
Lemma E_sqrt (om a : R) :
  0 < om <= 1 -> 0 < a ->
  E om a = sqrt (om + (1 - om) * (a * a * a)) / (a * sqrt a).
Proof.
  intros Hom Ha. unfold E. rewrite powerRZ_m3.
  assert (Hs : 0 < sqrt a) by now apply sqrt_lt_R0.
  assert (Hss : sqrt a * sqrt a = a) by (apply sqrt_sqrt; lra).
  assert (Ha3 : 0 < a * a * a) by (repeat apply Rmult_lt_0_compat; lra).
  assert (HR : 0 < om + (1 - om) * (a * a * a)) by nra.
  replace (om * / (a * a * a) + (1 - om))
    with ((om + (1 - om) * (a * a * a)) * / (a * a * a))
    by (field; lra).
  rewrite sqrt_mult_alt by lra. rewrite sqrt_inv.
  replace (a * a * a) with ((a * sqrt a) * (a * sqrt a)) at 2
    by (rewrite <- Hss at 5; ring).
  rewrite sqrt_square by nra. reflexivity.
Qed.

Lemma age_integrand_eq (om a : R) :
  0 < om <= 1 -> 0 < a ->
  age_integrand om a
  = age_substituted om (a * sqrt a) * (3 / 2 * sqrt a).
Proof.
  intros Hom Ha. unfold age_integrand, age_substituted, weight.
  rewrite E_sqrt by assumption.
  assert (Hs : 0 < sqrt a) by now apply sqrt_lt_R0.
  assert (Hss : sqrt a * sqrt a = a) by (apply sqrt_sqrt; lra).
  replace ((a * sqrt a) ^ 2) with (a * a * a)
    by (rewrite <- Hss at 3; ring).
  assert (Ha3 : 0 < a * a * a) by (repeat apply Rmult_lt_0_compat; lra).
  assert (HR : 0 < sqrt (om + (1 - om) * (a * a * a)))
    by (apply sqrt_lt_R0; nra).
  field. repeat split; lra.
Qed.

Lemma diameter_integrand_eq (om a : R) :
  0 < om <= 1 -> 0 < a ->
  diameter_integrand om a
  = diameter_substituted om (sqrt a) * / (2 * sqrt a).
Proof.
  intros Hom Ha. unfold diameter_integrand, diameter_substituted, weight.
  rewrite E_sqrt by assumption.
  assert (Hs : 0 < sqrt a) by now apply sqrt_lt_R0.
  assert (Hss : sqrt a * sqrt a = a) by (apply sqrt_sqrt; lra).
  replace (sqrt a ^ 6)
    with ((sqrt a * sqrt a) * (sqrt a * sqrt a) * (sqrt a * sqrt a))
    by ring.
  rewrite Hss.
  assert (Ha3 : 0 < a * a * a) by (repeat apply Rmult_lt_0_compat; lra).
  assert (HR : 0 < sqrt (om + (1 - om) * (a * a * a)))
    by (apply sqrt_lt_R0; nra).
  replace (a ^ 2) with (sqrt a * sqrt a * a) by (rewrite Hss; ring).
  field. repeat split; lra.
Qed.

Lemma continuity_age_integrand (om a : R) :
  0 < om <= 1 -> 0 < a -> continuity_pt (age_integrand om) a.
Proof.
  intros Hom Ha.
  apply (continuity_pt_locally_ext
           (fun a => age_substituted om (a * sqrt a) * (3 / 2 * sqrt a))
           (age_integrand om) a a Ha).
  - intros y Hy. symmetry. apply age_integrand_eq; [assumption|].
    unfold Rdist in Hy. apply Rabs_def2 in Hy. lra.
  - unfold age_substituted, weight.
    pose proof (radicand_pos 1 om (a * sqrt a) Hom) as Hr.
    simpl (2 * 1)%nat in Hr.
    reg; try lra.
    apply Rgt_not_eq, sqrt_lt_R0. lra.
Qed.

Lemma continuity_diameter_integrand (om a : R) :
  0 < om <= 1 -> 0 < a -> continuity_pt (diameter_integrand om) a.
Proof.
  intros Hom Ha.
  apply (continuity_pt_locally_ext
           (fun a => diameter_substituted om (sqrt a) * / (2 * sqrt a))
           (diameter_integrand om) a a Ha).
  - intros y Hy. symmetry. apply diameter_integrand_eq; [assumption|].
    unfold Rdist in Hy. apply Rabs_def2 in Hy. lra.
  - unfold diameter_substituted, weight.
    pose proof (radicand_pos 3 om (sqrt a) Hom) as Hr.
    simpl (2 * 3)%nat in Hr.
    assert (Hs : 0 < sqrt a) by now apply sqrt_lt_R0.
    reg; try lra.
    apply Rgt_not_eq, sqrt_lt_R0. lra.
Qed.

Lemma sqrt_unit (a : R) : 0 < a <= 1 -> 0 < sqrt a <= 1.
Proof.
  intros Ha. split; [apply sqrt_lt_R0; lra|].
  rewrite <- sqrt_1. apply sqrt_le_1; lra.
Qed.

Lemma derivable_pt_lim_three_halves (a : R) :
  0 < a -> derivable_pt_lim (fun a => a * sqrt a) a (3 / 2 * sqrt a).
Proof.
  intros Ha.
  assert (Hs : 0 < sqrt a) by now apply sqrt_lt_R0.
  assert (Hss : sqrt a * sqrt a = a) by (apply sqrt_sqrt; lra).
  replace (3 / 2 * sqrt a) with (1 * sqrt a + id a * / (2 * sqrt a)).
  - apply (derivable_pt_lim_mult id sqrt a 1 (/ (2 * sqrt a))).
    + apply derivable_pt_lim_id.
    + now apply derivable_pt_lim_sqrt.
  - unfold id. rewrite <- Hss at 2. field. lra.
Qed.

(** The age integral: with u = a^(3/2) it is the integral over [0, 1] of
    (2/3) / sqrt(Omega_m + (1 - Omega_m) u^2). *)
Lemma age_integral (om I : R) :
  0 < om <= 1 ->
  is_RInt (age_substituted om) 0 1 I -> is_RInt_0 (age_integrand om) 1 I.
Proof.
  intros Hom.
  apply (substitution_is_RInt (age_substituted om) (fun a => a * sqrt a)
                              (fun a => 3 / 2 * sqrt a)).
  - intros u _. unfold age_substituted.
    apply (continuity_pt_scal (weight 2 om) (2 / 3) u).
    now apply (continuity_weight 1).
  - rewrite sqrt_0. ring.
  - rewrite sqrt_1. ring.
  - intros a Ha. pose proof (sqrt_unit a Ha). nra.
  - reg. lra.
  - intros a Ha. apply derivable_pt_lim_three_halves. lra.
  - intros a Ha. apply age_integrand_eq; [assumption | lra].
  - intros a Ha. apply continuity_age_integrand; [assumption | lra].
Qed.

(** The diameter integral: with u = sqrt(a) it is the integral over
    [0, 1] of 2 / sqrt(Omega_m + (1 - Omega_m) u^6). *)
Lemma diameter_integral (om I : R) :
  0 < om <= 1 ->
  is_RInt (diameter_substituted om) 0 1 I ->
  is_RInt_0 (diameter_integrand om) 1 I.
Proof.
  intros Hom.
  apply (substitution_is_RInt (diameter_substituted om) sqrt
                              (fun a => / (2 * sqrt a))).
  - intros u _. unfold diameter_substituted.
    apply (continuity_pt_scal (weight 6 om) 2 u).
    now apply (continuity_weight 3).
  - apply sqrt_0.
  - apply sqrt_1.
  - intros a Ha. pose proof (sqrt_unit a Ha). lra.
  - apply continuity_pt_sqrt. lra.
  - intros a Ha. apply derivable_pt_lim_sqrt. lra.
  - intros a Ha. apply diameter_integrand_eq; [assumption | lra].
  - intros a Ha. apply continuity_diameter_integrand; [assumption | lra].
Qed.

Lemma age_substituted_integrable (om : R) :
  0 < om <= 1 -> exists I, is_RInt (age_substituted om) 0 1 I.
Proof.
  intros Hom.
  assert (Hc : forall u, 0 <= u <= 1 -> continuity_pt (age_substituted om) u).
  { intros u _. unfold age_substituted.
    apply (continuity_pt_scal (weight 2 om) (2 / 3) u).
    now apply (continuity_weight 1). }
  exists (RiemannInt (continuity_implies_RiemannInt Rle_0_1 Hc)).
  now exists (continuity_implies_RiemannInt Rle_0_1 Hc).
Qed.

Lemma diameter_substituted_integrable (om : R) :
  0 < om <= 1 -> exists I, is_RInt (diameter_substituted om) 0 1 I.
Proof.
  intros Hom.
  assert (Hc : forall u, 0 <= u <= 1 ->
                         continuity_pt (diameter_substituted om) u).
  { intros u _. unfold diameter_substituted.
    apply (continuity_pt_scal (weight 6 om) 2 u).
    now apply (continuity_weight 3). }
  exists (RiemannInt (continuity_implies_RiemannInt Rle_0_1 Hc)).
  now exists (continuity_implies_RiemannInt Rle_0_1 Hc).
Qed.

(** ** Bounds on the inverse square root *)

Lemma inv_sqrt_le (r t s : R) :
  0 < r -> 0 < t -> 0 < s -> s * s <= t * t * r -> / sqrt r <= t / s.
Proof.
  intros Hr Ht Hs H.
  assert (Hsr : 0 < sqrt r) by now apply sqrt_lt_R0.
  assert (Hle : s / t <= sqrt r).
  { rewrite <- (sqrt_square (s / t)).
    - apply sqrt_le_1_alt. apply Rmult_le_reg_r with (t * t); [nra|].
      replace (s / t * (s / t) * (t * t)) with (s * s) by (field; lra).
      lra.
    - apply Rlt_le, Rdiv_lt_0_compat; lra. }
  apply Rmult_le_reg_r with (sqrt r); [lra|].
  rewrite Rinv_l by lra.
  apply Rmult_le_reg_r with (s / t); [apply Rdiv_lt_0_compat; lra|].
  replace (t / s * sqrt r * (s / t)) with (sqrt r) by (field; lra).
  lra.
Qed.

Lemma inv_sqrt_ge (r t s : R) :
  0 < r -> 0 <= t -> 0 < s -> t * t * r <= s * s -> t / s <= / sqrt r.
Proof.
  intros Hr Ht Hs H.
  assert (Hsr : 0 < sqrt r) by now apply sqrt_lt_R0.
  assert (Hle : t * sqrt r <= s).
  { rewrite <- (sqrt_square (t * sqrt r)), <- (sqrt_square s) by nra.
    apply sqrt_le_1_alt.
    replace (t * sqrt r * (t * sqrt r)) with (t * t * (sqrt r * sqrt r))
      by ring.
    rewrite sqrt_sqrt by lra. exact H. }
  apply Rmult_le_reg_r with (sqrt r); [lra|].
  rewrite Rinv_l by lra.
  apply Rmult_le_reg_r with s; [lra|].
  replace (t / s * sqrt r * s) with (t * sqrt r) by (field; lra).
  lra.
Qed.

(** ** Soundness of the certified Riemann sums *)

Section Sums.

Variable n : nat.
Variables om_n ol_n D : Z.
Variables N S : Z.

Local Abbreviation radicand_num := (Friedmann.radicand_num n om_n ol_n N).
Local Abbreviation scale := (Friedmann.scale n D N S).
Local Abbreviation t_lo := (Friedmann.t_lo n om_n ol_n D N S).
Local Abbreviation t_hi := (Friedmann.t_hi n om_n ol_n D N S).
Local Abbreviation upper_ok := (Friedmann.upper_ok n om_n ol_n D N S).
Local Abbreviation lower_ok := (Friedmann.lower_ok n om_n ol_n D N S).
Local Abbreviation upper_sum := (Friedmann.upper_sum n om_n ol_n D N S).
Local Abbreviation lower_sum := (Friedmann.lower_sum n om_n ol_n D N S).
Local Abbreviation node := (Friedmann.node N).

Hypothesis HD : (0 < D)%Z.
Hypothesis HN : (0 < N)%Z.
Hypothesis HS : (0 < S)%Z.
Hypothesis Hom : (0 < om_n)%Z.
Hypothesis Hol : (0 <= ol_n)%Z.
Hypothesis Hsum : (om_n + ol_n = D)%Z.

Let om : R := IZR om_n / IZR D.

Lemma radicand_num_pos (k : nat) : (0 < radicand_num k)%Z.
Proof.
  unfold Friedmann.radicand_num.
  assert (0 < N ^ Z.of_nat n)%Z by (apply Z.pow_pos_nonneg; lia).
  assert (0 <= Z.of_nat k ^ Z.of_nat n)%Z by (apply Z.pow_nonneg; lia).
  nia.
Qed.

Lemma IZR_radicand_num (k : nat) :
  IZR (radicand_num k)
  = IZR om_n * IZR N ^ n + IZR ol_n * IZR (Z.of_nat k) ^ n.
Proof.
  unfold Friedmann.radicand_num. now rewrite plus_IZR, !mult_IZR, <- !pow_IZR.
Qed.

Lemma IZR_scale : IZR scale = IZR S * IZR S * (IZR D * IZR N ^ n).
Proof. unfold Friedmann.scale. now rewrite !mult_IZR, <- pow_IZR. Qed.

Lemma denominator_pos : 0 < IZR D * IZR N ^ n.
Proof.
  apply Rmult_lt_0_compat; [now apply IZR_lt|].
  apply pow_lt. now apply IZR_lt.
Qed.

Lemma radicand_node (k : nat) :
  om + (1 - om) * node k ^ n
  = IZR (radicand_num k) / (IZR D * IZR N ^ n).
Proof.
  rewrite IZR_radicand_num. unfold om, Friedmann.node, Rdiv.
  rewrite Rpow_mult_distr, pow_inv.
  replace (IZR ol_n) with (IZR D - IZR om_n)
    by (rewrite <- minus_IZR; f_equal; lia).
  pose proof denominator_pos as Hden.
  assert (0 < IZR D) by now apply IZR_lt.
  assert (0 < IZR N ^ n) by (apply pow_lt; now apply IZR_lt).
  field. split; lra.
Qed.

Lemma radicand_node_pos (k : nat) : 0 < om + (1 - om) * node k ^ n.
Proof.
  rewrite radicand_node. apply Rdiv_lt_0_compat; [|apply denominator_pos].
  apply IZR_lt, radicand_num_pos.
Qed.

Lemma upper_ok_sound (k : nat) :
  upper_ok k = true -> weight n om (node k) <= IZR (t_hi k) / IZR S.
Proof.
  unfold Friedmann.upper_ok. intros H. apply andb_prop in H. destruct H as (Ht & Hle).
  apply Z.ltb_lt in Ht. apply Z.leb_le in Hle.
  unfold weight. apply inv_sqrt_le.
  - apply radicand_node_pos.
  - now apply IZR_lt.
  - now apply IZR_lt.
  - rewrite radicand_node. apply IZR_le in Hle.
    rewrite !mult_IZR, IZR_scale in Hle.
    pose proof denominator_pos as Hden.
    set (den := IZR D * IZR N ^ n) in *.
    apply Rmult_le_reg_r with den; [exact Hden|].
    replace (IZR (t_hi k) * IZR (t_hi k) * (IZR (radicand_num k) / den) * den)
      with (IZR (t_hi k) * IZR (t_hi k) * IZR (radicand_num k))
      by (field; lra).
    lra.
Qed.

Lemma lower_ok_sound (k : nat) :
  lower_ok k = true -> IZR (t_lo k) / IZR S <= weight n om (node k).
Proof.
  unfold Friedmann.lower_ok. intros H. apply andb_prop in H. destruct H as (Ht & Hle).
  apply Z.leb_le in Ht. apply Z.leb_le in Hle.
  unfold weight. apply inv_sqrt_ge.
  - apply radicand_node_pos.
  - now apply IZR_le.
  - now apply IZR_lt.
  - rewrite radicand_node. apply IZR_le in Hle.
    rewrite !mult_IZR, IZR_scale in Hle.
    pose proof denominator_pos as Hden.
    set (den := IZR D * IZR N ^ n) in *.
    apply Rmult_le_reg_r with den; [exact Hden|].
    replace (IZR (t_lo k) * IZR (t_lo k) * (IZR (radicand_num k) / den) * den)
      with (IZR (t_lo k) * IZR (t_lo k) * IZR (radicand_num k))
      by (field; lra).
    lra.
Qed.

Lemma om_unit : 0 < om <= 1.
Proof.
  unfold om.
  assert (0 < IZR D) by now apply IZR_lt.
  assert (0 < IZR om_n) by now apply IZR_lt.
  assert (IZR om_n <= IZR D) by (apply IZR_le; lia).
  split; [now apply Rdiv_lt_0_compat|].
  apply Rmult_le_reg_r with (IZR D); [assumption|].
  unfold Rdiv. rewrite Rmult_assoc, Rinv_l by lra. lra.
Qed.

Lemma weight_decreasing (u v : R) :
  0 <= u <= v -> weight n om v <= weight n om u.
Proof.
  intros Huv. unfold weight. pose proof om_unit as Homu.
  assert (Hp : u ^ n <= v ^ n) by (apply pow_incr; lra).
  assert (H0 : 0 <= u ^ n) by (apply pow_le; lra).
  assert (Hr : 0 < om + (1 - om) * u ^ n) by nra.
  apply Rinv_le_contravar; [now apply sqrt_lt_R0|].
  apply sqrt_le_1_alt. nra.
Qed.

(** An antiderivative [H] of [kappa * weight] on [0, 1]. *)
Variable kappa : R.
Variable H : R -> R.
Hypothesis Hkappa : 0 <= kappa.
Hypothesis HH :
  forall u, 0 <= u <= 1 -> derivable_pt_lim H u (kappa * weight n om u).

Lemma node_step (k : nat) :
  node (Datatypes.S k) - node k = / IZR N.
Proof.
  unfold Friedmann.node. rewrite Nat2Z.inj_succ, succ_IZR.
  assert (0 < IZR N) by now apply IZR_lt. field. lra.
Qed.

Lemma node_range (k : nat) :
  (Z.of_nat k <= N)%Z -> 0 <= node k <= 1.
Proof.
  intros Hk. unfold Friedmann.node.
  assert (0 < IZR N) by now apply IZR_lt.
  assert (0 <= IZR (Z.of_nat k)) by (apply IZR_le; lia).
  assert (IZR (Z.of_nat k) <= IZR N) by now apply IZR_le.
  split.
  - apply Rmult_le_pos; [assumption|]. apply Rlt_le. now apply Rinv_0_lt_compat.
  - apply Rmult_le_reg_r with (IZR N); [assumption|].
    unfold Rdiv. rewrite Rmult_assoc, Rinv_l by lra. lra.
Qed.

(** On one interval the increase of [H] lies between the values of the
    integrand at the two ends, times the width. *)
Lemma interval_bounds (k : nat) :
  (Z.of_nat (Datatypes.S k) <= N)%Z ->
  kappa * weight n om (node (Datatypes.S k)) * / IZR N
  <= H (node (Datatypes.S k)) - H (node k)
  <= kappa * weight n om (node k) * / IZR N.
Proof.
  intros Hk.
  pose proof (node_range (Datatypes.S k) Hk) as Hb.
  assert (Hk' : (Z.of_nat k <= N)%Z) by lia.
  pose proof (node_range k Hk') as Ha.
  pose proof (node_step k) as Hstep.
  assert (HN' : 0 < / IZR N) by (apply Rinv_0_lt_compat; now apply IZR_lt).
  destruct (MVT_cor2 H (fun u => kappa * weight n om u)
                     (node k) (node (Datatypes.S k))) as (c & Hc & Hac).
  - lra.
  - intros u Hu. apply HH. lra.
  - rewrite Hc, Hstep.
    assert (Hlo : weight n om (node (Datatypes.S k)) <= weight n om c)
      by (apply weight_decreasing; lra).
    assert (Hhi : weight n om c <= weight n om (node k))
      by (apply weight_decreasing; lra).
    split; apply Rmult_le_compat_r; try lra;
      apply Rmult_le_compat_l; assumption.
Qed.

Lemma upper_sum_sound (m : nat) (T : Z) :
  upper_sum m = Some T -> (Z.of_nat m <= N)%Z ->
  H (node m) - H (node 0) <= kappa * (IZR T / IZR S) * / IZR N.
Proof.
  revert T. induction m as [|m IH]; simpl Friedmann.upper_sum; intros T HT Hm.
  - injection HT as <-. unfold Rdiv. rewrite Rminus_diag. lra.
  - destruct (upper_sum m) as [T'|]; [|discriminate].
    destruct (upper_ok m) eqn:Hok; [|discriminate].
    injection HT as <-.
    assert (Hm' : (Z.of_nat m <= N)%Z) by lia.
    specialize (IH T' eq_refl Hm').
    pose proof (interval_bounds m Hm) as (_ & Hstep).
    pose proof (upper_ok_sound m Hok) as Hw.
    assert (HN' : 0 < / IZR N) by (apply Rinv_0_lt_compat; now apply IZR_lt).
    rewrite plus_IZR.
    assert (kappa * weight n om (node m) * / IZR N
            <= kappa * (IZR (t_hi m) / IZR S) * / IZR N).
    { apply Rmult_le_compat_r; [lra|]. now apply Rmult_le_compat_l. }
    unfold Rdiv in *. nra.
Qed.

Lemma lower_sum_sound (m : nat) (T : Z) :
  lower_sum m = Some T -> (Z.of_nat m <= N)%Z ->
  kappa * (IZR T / IZR S) * / IZR N <= H (node m) - H (node 0).
Proof.
  revert T. induction m as [|m IH]; simpl Friedmann.lower_sum; intros T HT Hm.
  - injection HT as <-. unfold Rdiv. rewrite Rminus_diag. lra.
  - destruct (lower_sum m) as [T'|]; [|discriminate].
    destruct (lower_ok (Datatypes.S m)) eqn:Hok; [|discriminate].
    injection HT as <-.
    assert (Hm' : (Z.of_nat m <= N)%Z) by lia.
    specialize (IH T' eq_refl Hm').
    pose proof (interval_bounds m Hm) as (Hstep & _).
    pose proof (lower_ok_sound (Datatypes.S m) Hok) as Hw.
    assert (HN' : 0 < / IZR N) by (apply Rinv_0_lt_compat; now apply IZR_lt).
    rewrite plus_IZR.
    assert (kappa * (IZR (t_lo (Datatypes.S m)) / IZR S) * / IZR N
            <= kappa * weight n om (node (Datatypes.S m)) * / IZR N).
    { apply Rmult_le_compat_r; [lra|]. now apply Rmult_le_compat_l. }
    unfold Rdiv in *. nra.
Qed.

(** The bounds on the whole integral. *)
Lemma sums_bound (lo hi : Z) :
  lower_sum (Z.to_nat N) = Some lo -> upper_sum (Z.to_nat N) = Some hi ->
  kappa * (IZR lo / IZR S) * / IZR N <= H 1 - H 0
  <= kappa * (IZR hi / IZR S) * / IZR N.
Proof.
  intros Hlo Hhi.
  assert (Hm : (Z.of_nat (Z.to_nat N) <= N)%Z) by lia.
  assert (H1 : node (Z.to_nat N) = 1).
  { unfold Friedmann.node. rewrite Z2Nat.id by lia.
    apply Rinv_r. apply Rgt_not_eq. now apply IZR_lt. }
  assert (H0 : node 0 = 0) by (unfold Friedmann.node; simpl; lra).
  rewrite <- H1, <- H0 at 1 2.
  split; [now apply lower_sum_sound | now apply upper_sum_sound].
Qed.

End Sums.

(** ** What the cell computes when the quadrature has converged *)

Lemma exact_quad_converged (f : R -> R) : converged exact_quad f.
Proof.
  intros I HI. unfold exact_quad, fst.
  assert (Heps : is_RInt_0 f 1
                   (epsilon (inhabits 0) (fun I => is_RInt_0 f 1 I))).
  { apply epsilon_spec. now exists I. }
  rewrite (is_RInt_0_unique _ _ _ Heps HI), Rminus_diag, Rabs_R0.
  apply Rle_trans with epsabs; [unfold epsabs; lra | apply Rmax_l].
Qed.

Lemma exact_quad_value (f : R -> R) (a I : R) :
  is_RInt_0 f 1 I -> fst (exact_quad f a 1) = I.
Proof.
  intros HI. unfold exact_quad, fst.
  apply (fun H => is_RInt_0_unique f _ _ H HI).
  apply epsilon_spec. now exists I.
Qed.


Lemma diameter_accuracy (quad : integrator) (kpc c H0 om I : R) :
  converged quad (diameter_integrand om) ->
  is_RInt_0 (diameter_integrand om) 1 I ->
  Rabs (diameter quad kpc c H0 om - 2 * c / H0_cgs kpc H0 * I)
  <= Rabs (2 * c / H0_cgs kpc H0) * Rmax epsabs (epsrel * Rabs I).
Proof.
  intros Hq HI. unfold diameter.
  rewrite <- Rmult_minus_distr_l, Rabs_mult.
  apply Rmult_le_compat_l; [apply Rabs_pos | now apply Hq].
Qed.

(** ** The matter-only universe *)

Lemma age_substituted_matter_only (u : R) : age_substituted 1 u = 2 / 3.
Proof.
  unfold age_substituted, weight.
  replace (1 + (1 - 1) * u ^ 2) with 1 by ring.
  rewrite sqrt_1. field.
Qed.

Lemma matter_only_integral : is_RInt_0 (age_integrand 1) 1 (2 / 3).
Proof.
  apply age_integral; [lra|].
  replace (2 / 3) with (2 / 3 * 1 - 2 / 3 * 0) by ring.
  apply (is_RInt_antiderivative (age_substituted 1) (fun u => 2 / 3 * u)).
  - lra.
  - intros u _. rewrite age_substituted_matter_only.
    pose proof (derivable_pt_lim_scal id (2 / 3) u 1 (derivable_pt_lim_id u))
      as Hd.
    unfold mult_real_fct, id in Hd. now rewrite Rmult_1_r in Hd.
  - intros u _.
    apply (continuity_pt_scal (weight 2 1) (2 / 3) u).
    apply (continuity_weight 1). lra.
Qed.



(** ** The comoving diameter *)

(** C3, as the code has it. For every Omega_m in (0, 1) the integral
    over (0, 1] of 1/(a^2 E(a)), with the E(a) of the age computation,
    exists although the integrand diverges at 0. The diameter that the
    cell computes is 2 c H0^-1 times the estimate that the quadrature
    returns for that integral, whatever the estimate is worth; when the
    quadrature has met its tolerances it is 2 c H0^-1 times the
    integral, up to 2 c H0^-1 times the tolerance. *)
Theorem diameter_is_friedmann_integral
        (quad : integrator) (kpc c H0 om : R) :
  0 < om < 1 ->
  (forall a, E om a = sqrt (om * powerRZ a (-3) + (1 - om))) /\
  (forall a, age_integrand om a = 1 / (a * E om a)) /\
  diameter quad kpc c H0 om
  = 2 * c / H0_cgs kpc H0 * fst (quad (fun a => 1 / (a ^ 2 * E om a)) 0 1) /\
  exists I,
    is_RInt_0 (fun a => 1 / (a ^ 2 * E om a)) 1 I /\
    (converged quad (diameter_integrand om) ->
     Rabs (diameter quad kpc c H0 om - 2 * c / H0_cgs kpc H0 * I)
     <= Rabs (2 * c / H0_cgs kpc H0) * Rmax epsabs (epsrel * Rabs I)).
Proof.
  intros Hom. split; [reflexivity|]. split; [reflexivity|].
  split; [reflexivity|].
  destruct (diameter_substituted_integrable om) as (I & HI); [lra|].
  exists I.
  assert (HI0 : is_RInt_0 (diameter_integrand om) 1 I)
    by (apply diameter_integral; [lra | exact HI]).
  split; [exact HI0|]. intros Hq. now apply diameter_accuracy.
Qed.

Lemma diameter_is_friedmann_integral_witness :
  (forall a, E (1 / 2) a
             = sqrt (1 / 2 * powerRZ a (-3) + (1 - 1 / 2))) /\
  (forall a, age_integrand (1 / 2) a = 1 / (a * E (1 / 2) a)) /\
  diameter exact_quad 1 1 1 (1 / 2)
  = 2 * 1 / H0_cgs 1 1
    * fst (exact_quad (fun a => 1 / (a ^ 2 * E (1 / 2) a)) 0 1) /\
  exists I,
    is_RInt_0 (fun a => 1 / (a ^ 2 * E (1 / 2) a)) 1 I /\
    (converged exact_quad (diameter_integrand (1 / 2)) ->
     Rabs (diameter exact_quad 1 1 1 (1 / 2) - 2 * 1 / H0_cgs 1 1 * I)
     <= Rabs (2 * 1 / H0_cgs 1 1) * Rmax epsabs (epsrel * Rabs I)).
Proof.
  apply (diameter_is_friedmann_integral exact_quad 1 1 1 (1 / 2)); lra.
Defined.

(** ** Certified bounds on the two integrals *)

Lemma continuity_weight_nonneg (n : nat) (om u : R) :
  0 < om <= 1 -> 0 <= u -> continuity_pt (weight n om) u.
Proof.
  intros Hom Hu. unfold weight.
  assert (H0 : 0 <= u ^ n) by (apply pow_le; lra).
  assert (Hr : 0 < om + (1 - om) * u ^ n) by nra.
  reg; [lra|].
  apply Rgt_not_eq, sqrt_lt_R0. lra.
Qed.

(** The integral over [0, 1] of [kappa * weight n (om_n / D)] lies between
    the two sums of a certificate. *)
Lemma certified_bounds (n : nat) (om_n ol_n D N S lo hi : Z) (kappa I : R) :
  (0 < D)%Z -> (0 < N)%Z -> (0 < S)%Z -> (0 < om_n)%Z -> (0 <= ol_n)%Z ->
  (om_n + ol_n = D)%Z -> 0 <= kappa ->
  lower_sum n om_n ol_n D N S (Z.to_nat N) = Some lo ->
  upper_sum n om_n ol_n D N S (Z.to_nat N) = Some hi ->
  is_RInt (fun u => kappa * weight n (IZR om_n / IZR D) u) 0 1 I ->
  kappa * (IZR lo / IZR S) * / IZR N <= I
  <= kappa * (IZR hi / IZR S) * / IZR N.
Proof.
  intros HD HN HS Hom Hol Hsum Hkappa Hlo Hhi HI.
  set (h := fun u => kappa * weight n (IZR om_n / IZR D) u) in *.
  assert (Hc : forall u, 0 <= u <= 1 -> continuity_pt h u).
  { intros u Hu.
    apply (continuity_pt_scal (weight n (IZR om_n / IZR D)) kappa u).
    apply continuity_weight_nonneg; [|lra].
    now apply (om_unit om_n ol_n D). }
  destruct (RiemannInt_P30 Rle_0_1 Hc) as (H & HH & _).
  assert (HH' : forall u, 0 <= u <= 1 -> derivable_pt_lim H u (h u)).
  { intros u Hu. destruct (HH u Hu) as (pr & ->).
    now apply (derive_pt_eq_1 H u _ pr). }
  rewrite (is_RInt_unique _ _ _ _ _ HI
             (is_RInt_antiderivative h H 0 1 Rle_0_1 HH' Hc)).
  now apply (sums_bound n om_n ol_n D N S HD HN HS Hom Hol Hsum kappa H).
Qed.

Lemma omegam_ratio : omegam = IZR 3153 / IZR 10000.
Proof. unfold omegam. lra. Qed.

(** With the Planck 2018 matter density the age integral is 0.9507... *)
Lemma planck_age_integral (I : R) :
  is_RInt_0 (age_integrand omegam) 1 I -> 0.95047 <= I <= 0.950991.
Proof.
  intros HI.
  assert (Hom : 0 < omegam <= 1) by (unfold omegam; lra).
  destruct (age_substituted_integrable omegam Hom) as (I' & HI').
  rewrite (is_RInt_0_unique _ _ _ HI (age_integral omegam I' Hom HI')).
  unfold age_substituted in HI'. rewrite omegam_ratio in HI'.
  pose proof (certified_bounds 2 3153 6847 10000 1000 10000000
                14257050868 14264860805 (2 / 3) I') as Hb.
  destruct Hb as (Hlo & Hhi); try lia; try lra; try exact HI';
    vm_compute; reflexivity.
Qed.

(** ... and the diameter integral is 3.2389... *)
Lemma planck_diameter_integral (I : R) :
  is_RInt_0 (diameter_integrand omegam) 1 I -> 3.238146 <= I <= 3.239709.
Proof.
  intros HI.
  assert (Hom : 0 < omegam <= 1) by (unfold omegam; lra).
  destruct (diameter_substituted_integrable omegam Hom) as (I' & HI').
  rewrite (is_RInt_0_unique _ _ _ HI (diameter_integral omegam I' Hom HI')).
  unfold diameter_substituted in HI'. rewrite omegam_ratio in HI'.
  pose proof (certified_bounds 6 3153 6847 10000 1000 10000000
                16190733262 16198543199 2 I') as Hb.
  destruct Hb as (Hlo & Hhi); try lia; try lra; try exact HI';
    vm_compute; reflexivity.
Qed.

(** ** The Planck 2018 universe *)

Lemma Rabs_le_between (x b : R) : Rabs x <= b -> - b <= x <= b.
Proof. unfold Rabs. destruct (Rcase_abs x); lra. Qed.

Lemma converged_estimate (quad : integrator) (f : R -> R) (I lo hi : R) :
  converged quad f -> is_RInt_0 f 1 I -> 0 < lo <= I -> I <= hi ->
  lo - Rmax epsabs (epsrel * hi) <= fst (quad f 0 1)
  <= hi + Rmax epsabs (epsrel * hi).
Proof.
  intros Hq HI Hlo Hhi. specialize (Hq I HI).
  rewrite (Rabs_pos_eq I) in Hq by lra.
  assert (Hmax : Rmax epsabs (epsrel * I) <= Rmax epsabs (epsrel * hi)).
  { apply Rmax_lub; [apply Rmax_l|].
    apply Rle_trans with (epsrel * hi); [|apply Rmax_r].
    unfold epsrel. nra. }
  apply Rabs_le_between in Hq. lra.
Qed.

(** The two estimates of a quadrature that has converged. *)
Lemma planck_estimates (quad : integrator) :
  converged quad (age_integrand omegam) ->
  converged quad (diameter_integrand omegam) ->
  0.9504699 <= fst (quad (age_integrand omegam) 0 1) <= 0.9509911 /\
  3.2381459 <= fst (quad (diameter_integrand omegam) 0 1) <= 3.2397091.
Proof.
  intros Hage Hdiam.
  assert (Hom : 0 < omegam <= 1) by (unfold omegam; lra).
  destruct (age_substituted_integrable omegam Hom) as (Ia & HIa).
  apply (age_integral omegam Ia Hom) in HIa.
  destruct (diameter_substituted_integrable omegam Hom) as (Id & HId).
  apply (diameter_integral omegam Id Hom) in HId.
  pose proof (planck_age_integral Ia HIa) as Ba.
  pose proof (planck_diameter_integral Id HId) as Bd.
  pose proof (converged_estimate quad _ Ia 0.95047 0.950991 Hage HIa) as Qa.
  pose proof (converged_estimate quad _ Id 3.238146 3.239709 Hdiam HId) as Qd.
  assert (Ma : Rmax epsabs (epsrel * 0.950991) <= 1e-7)
    by (apply Rmax_lub; unfold epsabs, epsrel; lra).
  assert (Md : Rmax epsabs (epsrel * 3.239709) <= 1e-7)
    by (apply Rmax_lub; unfold epsabs, epsrel; lra).
  lra.
Qed.

(** C4. With H0 = 67.36 km/s/Mpc and Omega_m = 0.3153, astropy's values
    of the kiloparsec and of the speed of light, and a quadrature that
    has converged, the cell prints an age within 0.01 of 13.81 Gyr and a
    comoving diameter within 0.01 of 28.83 Gpc. *)
Theorem planck_2018_age_and_diameter (quad : integrator) (kpc c : R) :
  kpc = 3.0856775814913674e19 -> c = 29979245800 ->
  converged quad (age_integrand omegam) ->
  converged quad (diameter_integrand omegam) ->
  exists age_Gyr age_s diameter_Gpc diameter_cm,
    cell quad kpc c H0 omegam
    = inr [ ("Age (Gyr)"%string, age_Gyr); ("Age (s)"%string, age_s);
            ("Diameter (Gpc)"%string, diameter_Gpc);
            ("Diameter (cm)"%string, diameter_cm) ] /\
    Rabs (age_Gyr - 13.81) <= 0.01 /\
    Rabs (diameter_Gpc - 28.83) <= 0.01.
Proof.
  intros -> -> Hage Hdiam.
  destruct (planck_estimates quad Hage Hdiam) as (Qa & Qd).
  eexists _, _, _, _. split; [reflexivity|].
  unfold age, diameter, H0_cgs, Gyr, H0.
  set (qa := fst (quad (age_integrand omegam) 0 1)) in *.
  set (qd := fst (quad (diameter_integrand omegam) 0 1)) in *.
  split; apply Rabs_le; lra.
Qed.

(** The output stored in the notebook lies where the model puts it: each
    stored value is within 0.03 per cent of the value that the cell
    computes from a converged quadrature. *)
Lemma stored_output_agrees (quad : integrator) :
  converged quad (age_integrand omegam) ->
  converged quad (diameter_integrand omegam) ->
  exists age_Gyr age_s diameter_Gpc diameter_cm
         stored_Gyr stored_s stored_Gpc stored_cm,
    cell quad 3.0856775814913674e19 29979245800 H0 omegam
    = inr [ ("Age (Gyr)"%string, age_Gyr); ("Age (s)"%string, age_s);
            ("Diameter (Gpc)"%string, diameter_Gpc);
            ("Diameter (cm)"%string, diameter_cm) ] /\
    Friedmann.stored_output
    = [ ("Age (Gyr)"%string, stored_Gyr); ("Age (s)"%string, stored_s);
        ("Diameter (Gpc)"%string, stored_Gpc);
        ("Diameter (cm)"%string, stored_cm) ] /\
    Rabs (age_Gyr - stored_Gyr) <= 3e-4 * stored_Gyr /\
    Rabs (age_s - stored_s) <= 3e-4 * stored_s /\
    Rabs (diameter_Gpc - stored_Gpc) <= 3e-4 * stored_Gpc /\
    Rabs (diameter_cm - stored_cm) <= 3e-4 * stored_cm.
Proof.
  intros Hage Hdiam.
  destruct (planck_estimates quad Hage Hdiam) as (Qa & Qd).
  eexists _, _, _, _, _, _, _, _.
  split; [reflexivity|]. split; [reflexivity|].
  unfold age, diameter, H0_cgs, Gyr, H0.
  set (qa := fst (quad (age_integrand omegam) 0 1)) in *.
  set (qd := fst (quad (diameter_integrand omegam) 0 1)) in *.
  repeat split; apply Rabs_le; lra.
Qed.

Lemma planck_2018_age_and_diameter_witness :
  exists age_Gyr age_s diameter_Gpc diameter_cm,
    cell exact_quad 3.0856775814913674e19 29979245800 H0 omegam
    = inr [ ("Age (Gyr)"%string, age_Gyr); ("Age (s)"%string, age_s);
            ("Diameter (Gpc)"%string, diameter_Gpc);
            ("Diameter (cm)"%string, diameter_cm) ] /\
    Rabs (age_Gyr - 13.81) <= 0.01 /\
    Rabs (diameter_Gpc - 28.83) <= 0.01.
Proof.
  apply (planck_2018_age_and_diameter exact_quad);
    [reflexivity | reflexivity | apply exact_quad_converged ..].
Defined.

(** ** No error path *)

(** In the de Sitter limit the age integrand is 1/a ... *)
Lemma de_sitter_integrand (a : R) : age_integrand 0 a = / a.
Proof.
  unfold age_integrand, E.
  replace (0 * powerRZ a (-3) + (1 - 0)) with 1 by ring.
  rewrite sqrt_1, Rmult_1_r. unfold Rdiv. ring.
Qed.

Lemma de_sitter_partial (x : R) :
  0 < x <= 1 -> is_RInt (age_integrand 0) x 1 (- ln x).
Proof.
  intros Hx. replace (- ln x) with (ln 1 - ln x) by (rewrite ln_1; ring).
  apply is_RInt_antiderivative.
  - lra.
  - intros a Ha. rewrite de_sitter_integrand.
    apply derivable_pt_lim_ln. lra.
  - intros a Ha.
    apply (continuity_pt_locally_ext (fun a => / a) (age_integrand 0) 1 a);
      [lra | intros y _; symmetry; apply de_sitter_integrand |].
    reg. lra.
Qed.

(** ... and its integral over (0, 1] diverges. *)
Lemma de_sitter_diverges : ~ exists I, is_RInt_0 (age_integrand 0) 1 I.
Proof.
  intros (I & _ & Hlim).
  destruct (Hlim 1 Rlt_0_1) as (delta & Hdelta & Hclose).
  set (x := Rmin (Rmin (delta / 2) 1) (exp (- Rabs I - 2))).
  assert (Hx0 : 0 < x).
  { unfold x. repeat apply Rmin_glb_lt; try lra. apply exp_pos. }
  assert (Hxd : x < delta).
  { unfold x. eapply Rle_lt_trans; [apply Rmin_l|].
    eapply Rle_lt_trans; [apply Rmin_l|]. lra. }
  assert (Hx1 : x <= 1).
  { unfold x. eapply Rle_trans; [apply Rmin_l|]. apply Rmin_r. }
  assert (Hxe : x <= exp (- Rabs I - 2)) by apply Rmin_r.
  assert (Hln : ln x <= - Rabs I - 2).
  { rewrite <- (ln_exp (- Rabs I - 2)).
    destruct Hxe as [Hlt| ->]; [apply Rlt_le, ln_increasing; lra | lra]. }
  pose proof (Hclose x (- ln x) (conj Hx0 Hxd) Hx1
                     (de_sitter_partial x (conj Hx0 Hx1))) as Habs.
  apply Rabs_def2 in Habs. pose proof (Rle_abs I).
  pose proof (Rabs_pos I). lra.
Qed.

(** C6, as the code has it. The Friedmann integrator has no error path
    and no NumericalInstability error: for every Omega_m, also outside
    (0, 1), and whether or not the quadrature has converged, the cell
    prints its four values, the age being H0^-1 times the estimate that
    the quadrature returns and the diameter 2 c H0^-1 times the other
    estimate. This holds in the de Sitter limit Omega_m = 0 too, where
    the age integral diverges. *)
Theorem integrator_has_no_error_path (quad : integrator) (kpc c H0 om : R) :
  cell quad kpc c H0 om
  = inr [ ("Age (Gyr)"%string, age quad kpc H0 om / Gyr);
          ("Age (s)"%string, age quad kpc H0 om);
          ("Diameter (Gpc)"%string,
           diameter quad kpc c H0 om / 1e2 / (kpc * 1e6));
          ("Diameter (cm)"%string, diameter quad kpc c H0 om) ] /\
  age quad kpc H0 om
  = 1 / H0_cgs kpc H0 * fst (quad (age_integrand om) 0 1) /\
  diameter quad kpc c H0 om
  = 2 * c / H0_cgs kpc H0 * fst (quad (diameter_integrand om) 0 1) /\
  ~ (exists I, is_RInt_0 (age_integrand 0) 1 I).
Proof.
  repeat split; try reflexivity. exact de_sitter_diverges.
Qed.

(** C6 as stated fails. With Omega_m = 1, outside the domain that the
    claim guards, an exact quadrature makes the cell return the age
    (2/3) H0^-1; and a quadrature that has not converged (estimate 41,
    error estimate 9) makes it return all the same. *)
Lemma domain_violation_returns_a_value :
  age exact_quad 3.0856775814913674e19 H0 1
  = 1 / H0_cgs 3.0856775814913674e19 H0 * (2 / 3) /\
  (exists out,
     cell exact_quad 3.0856775814913674e19 29979245800 H0 1 = inr out) /\
  ~ converged (fixed_quad 41 9) (age_integrand 1) /\
  (exists out,
     cell (fixed_quad 41 9) 3.0856775814913674e19 29979245800 H0 1
     = inr out).
Proof.
  split; [|split; [|split]].
  - unfold age. now rewrite (exact_quad_value _ 0 _ matter_only_integral).
  - eexists. reflexivity.
  - intros Hq. specialize (Hq (2 / 3) matter_only_integral).
    unfold fixed_quad, fst in Hq.
    rewrite Rabs_pos_eq in Hq by lra. rewrite Rabs_pos_eq in Hq by lra.
    assert (Rmax epsabs (epsrel * (2 / 3)) <= 1)
      by (apply Rmax_lub; unfold epsabs, epsrel; lra).
    lra.
  - eexists. reflexivity.
Qed.

(** C8, as the code has it. For both quadratures the cell keeps only the
    estimate of the integral: the error estimate that the quadrature
    returns with it is discarded, neither printed nor compared with a
    tolerance, so that two quadratures with the same estimates give the
    same four printed values whatever their error estimates are. *)
Theorem error_estimate_is_discarded
        (quad quad' : integrator) (kpc c H0 om : R) :
  (forall f a b, fst (quad f a b) = fst (quad' f a b)) ->
  cell quad kpc c H0 om = cell quad' kpc c H0 om /\
  exists age_Gyr age_s diameter_Gpc diameter_cm,
    cell quad kpc c H0 om
    = inr [ ("Age (Gyr)"%string, age_Gyr); ("Age (s)"%string, age_s);
            ("Diameter (Gpc)"%string, diameter_Gpc);
            ("Diameter (cm)"%string, diameter_cm) ].
Proof.
  intros Hfst. split.
  - unfold cell, age, diameter. now rewrite !Hfst.
  - eexists _, _, _, _. reflexivity.
Qed.

Lemma error_estimate_is_discarded_witness :
  cell (fixed_quad 0.95 0.5) 3.0856775814913674e19 29979245800 H0 omegam
  = cell (fixed_quad 0.95 0) 3.0856775814913674e19 29979245800 H0 omegam /\
  exists age_Gyr age_s diameter_Gpc diameter_cm,
    cell (fixed_quad 0.95 0.5) 3.0856775814913674e19 29979245800 H0 omegam
    = inr [ ("Age (Gyr)"%string, age_Gyr); ("Age (s)"%string, age_s);
            ("Diameter (Gpc)"%string, diameter_Gpc);
            ("Diameter (cm)"%string, diameter_cm) ].
Proof.
  apply (error_estimate_is_discarded (fixed_quad 0.95 0.5)
                                     (fixed_quad 0.95 0)).
  reflexivity.
Defined.

(** C8 as stated fails. A quadrature that returns the estimate 0.95 with
    the error estimate 0.5, far beyond a relative tolerance of 10^-6,
    makes the cell print exactly what it prints when the error estimate
    is 0: the error is not reported, and nothing fails or is flagged. *)
Lemma large_error_estimate_goes_unreported :
  snd (fixed_quad 0.95 0.5 (age_integrand omegam) 0 1)
  > 1e-6 * Rabs (fst (fixed_quad 0.95 0.5 (age_integrand omegam) 0 1)) /\
  snd (fixed_quad 0.95 0 (age_integrand omegam) 0 1)
  <= 1e-6 * Rabs (fst (fixed_quad 0.95 0 (age_integrand omegam) 0 1)) /\
  cell (fixed_quad 0.95 0.5) 3.0856775814913674e19 29979245800 H0 omegam
  = cell (fixed_quad 0.95 0) 3.0856775814913674e19 29979245800 H0 omegam /\
  exists out,
    cell (fixed_quad 0.95 0.5) 3.0856775814913674e19 29979245800 H0 omegam
    = inr out.
Proof.
  unfold fixed_quad, fst, snd. rewrite Rabs_pos_eq by lra.
  repeat split; try lra. eexists. reflexivity.
Qed.

(** ** The expansion rate below a = 1 *)

Lemma inv_cube_ge_one (a : R) : 0 < a <= 1 -> 1 <= / (a * a * a).
Proof.
  intros Ha.
  assert (H3 : 0 < a * a * a) by (repeat apply Rmult_lt_0_compat; lra).
  assert (H1 : a * a * a <= 1) by nra.
  rewrite <- Rinv_1. apply Rinv_le_contravar; lra.
Qed.

(** ** Comparing integrals *)

Lemma is_RInt_le (f g : R -> R) (a b If Ig : R) :
  a <= b -> (forall x, a < x < b -> f x <= g x) ->
  is_RInt f a b If -> is_RInt g a b Ig -> If <= Ig.
Proof.
  intros Hab Hfg (pf & <-) (pg & <-). now apply RiemannInt_P19.
Qed.

Lemma is_RInt_const (K a b : R) : is_RInt (fun _ => K) a b (K * (b - a)).
Proof.
  exists (RiemannInt_P14 a b K). apply RiemannInt_P15.
Qed.

Lemma is_RInt_0_le (f g : R -> R) (If Ig : R) :
  (forall x, 0 < x <= 1 -> f x <= g x) ->
  is_RInt_0 f 1 If -> is_RInt_0 g 1 Ig -> If <= Ig.
Proof.
  intros Hfg (Hexf & Hlimf) (Hexg & Hlimg).
  destruct (Rle_or_lt If Ig) as [Hle|Hlt]; [exact Hle|exfalso].
  destruct (Hlimf ((If - Ig) / 2)) as (d & Hd & Hf); [lra|].
  destruct (Hlimg ((If - Ig) / 2)) as (d' & Hd' & Hg); [lra|].
  set (x := Rmin (Rmin d d') 1 / 2).
  assert (Hx : 0 < x /\ x < d /\ x < d' /\ x <= 1).
  { unfold x. pose proof (Rmin_l (Rmin d d') 1).
    pose proof (Rmin_r (Rmin d d') 1).
    pose proof (Rmin_l d d'). pose proof (Rmin_r d d').
    assert (0 < Rmin (Rmin d d') 1).
    { repeat apply Rmin_glb_lt; lra. }
    lra. }
  destruct (Hexf x) as (Fx & HFx); [lra|].
  destruct (Hexg x) as (Gx & HGx); [lra|].
  assert (Hxle : Fx <= Gx).
  { apply (is_RInt_le f g x 1); [lra| |assumption|assumption].
    intros y Hy. apply Hfg. lra. }
  assert (H1 := Hf x Fx (conj (proj1 Hx) (proj1 (proj2 Hx)))
                   (proj2 (proj2 (proj2 Hx))) HFx).
  assert (H2 := Hg x Gx (conj (proj1 Hx) (proj1 (proj2 (proj2 Hx))))
                   (proj2 (proj2 (proj2 Hx))) HGx).
  apply Rabs_def2 in H1. apply Rabs_def2 in H2. lra.
Qed.

(** ** Bounds that hold for every matter density *)

Lemma weight_bounds (n : nat) (om u : R) :
  0 < om <= 1 -> 0 <= u <= 1 -> 1 <= weight n om u <= / sqrt om.
Proof.
  intros Hom Hu.
  assert (Hp0 : 0 <= u ^ n) by (apply pow_le; lra).
  assert (Hp1 : u ^ n <= 1).
  { rewrite <- (pow1 n). apply pow_incr. lra. }
  assert (Hlo : om <= om + (1 - om) * u ^ n) by nra.
  assert (Hhi : om + (1 - om) * u ^ n <= 1) by nra.
  assert (Hs : 0 < sqrt om) by (apply sqrt_lt_R0; lra).
  assert (Hs1 : sqrt om <= sqrt (om + (1 - om) * u ^ n))
    by now apply sqrt_le_1_alt.
  assert (Hs2 : sqrt (om + (1 - om) * u ^ n) <= 1).
  { apply Rle_trans with (sqrt 1); [now apply sqrt_le_1_alt|].
    rewrite sqrt_1. lra. }
  unfold weight. split.
  - rewrite <- Rinv_1 at 1. apply Rinv_le_contravar; lra.
  - apply Rinv_le_contravar; lra.
Qed.

Lemma substituted_bounds (f : R -> R) (kappa : R) (n : nat) (om I : R) :
  0 < om <= 1 -> 0 <= kappa ->
  (forall u, f u = kappa * weight n om u) ->
  is_RInt f 0 1 I -> kappa <= I <= kappa / sqrt om.
Proof.
  intros Hom Hk Hf HI. split.
  - replace kappa with (kappa * (1 - 0)) by ring.
    apply (is_RInt_le (fun _ => kappa) f 0 1); [lra| | |exact HI].
    + intros u Hu. rewrite Hf.
      pose proof (weight_bounds n om u Hom (conj (Rlt_le _ _ (proj1 Hu))
                  (Rlt_le _ _ (proj2 Hu)))) as Hw. nra.
    + apply is_RInt_const.
  - replace (kappa / sqrt om) with (kappa / sqrt om * (1 - 0)) by ring.
    apply (is_RInt_le f (fun _ => kappa / sqrt om) 0 1); [lra| |exact HI|].
    + intros u Hu. rewrite Hf.
      pose proof (weight_bounds n om u Hom (conj (Rlt_le _ _ (proj1 Hu))
                  (Rlt_le _ _ (proj2 Hu)))) as Hw. unfold Rdiv. nra.
    + apply is_RInt_const.
Qed.

Lemma age_integral_value (om I : R) :
  0 < om <= 1 -> is_RInt_0 (age_integrand om) 1 I ->
  is_RInt (age_substituted om) 0 1 I.
Proof.
  intros Hom HI. destruct (age_substituted_integrable om Hom) as (I' & HI').
  now rewrite (is_RInt_0_unique _ _ _ HI (age_integral om I' Hom HI')).
Qed.

Lemma diameter_integral_value (om I : R) :
  0 < om <= 1 -> is_RInt_0 (diameter_integrand om) 1 I ->
  is_RInt (diameter_substituted om) 0 1 I.
Proof.
  intros Hom HI.
  destruct (diameter_substituted_integrable om Hom) as (I' & HI').
  now rewrite (is_RInt_0_unique _ _ _ HI (diameter_integral om I' Hom HI')).
Qed.

(** X9. For every matter density in (0, 1] the two integrals lie between
    their matter-only values and those values divided by sqrt(Omega_m):
    the age integral between 2/3 and 2/(3 sqrt(Omega_m)), the diameter
    integral between 2 and 2/sqrt(Omega_m). Dark energy can only make the
    universe older and larger than the matter-only one of the same H0. *)
Theorem integrals_between_matter_only_bounds (om A D : R) :
  0 < om <= 1 ->
  is_RInt_0 (age_integrand om) 1 A ->
  is_RInt_0 (diameter_integrand om) 1 D ->
  2 / 3 <= A <= 2 / 3 / sqrt om /\ 2 <= D <= 2 / sqrt om.
Proof.
  intros Hom HA HD. split.
  - apply (substituted_bounds (age_substituted om) (2 / 3) 2 om A);
      [assumption|lra|reflexivity|now apply age_integral_value].
  - apply (substituted_bounds (diameter_substituted om) 2 6 om D);
      [assumption|lra|reflexivity|now apply diameter_integral_value].
Qed.

Lemma diameter_substituted_matter_only (u : R) : diameter_substituted 1 u = 2.
Proof.
  unfold diameter_substituted, weight.
  replace (1 + (1 - 1) * u ^ 6) with 1 by ring.
  rewrite sqrt_1. field.
Qed.

Lemma matter_only_diameter_integral : is_RInt_0 (diameter_integrand 1) 1 2.
Proof.
  apply diameter_integral; [lra|].
  assert (H : forall I, I = 2 * 1 - 2 * 0 ->
                        is_RInt (diameter_substituted 1) 0 1 I).
  { intros I ->.
    apply (is_RInt_antiderivative (diameter_substituted 1)
                                  (fun u => 2 * u)).
    - lra.
    - intros u _. rewrite diameter_substituted_matter_only.
      pose proof (derivable_pt_lim_scal id 2 u 1 (derivable_pt_lim_id u))
        as Hd.
      unfold mult_real_fct, id in Hd. now rewrite Rmult_1_r in Hd.
    - intros u _.
      apply (continuity_pt_scal (weight 6 1) 2 u).
      apply (continuity_weight 3). lra. }
  apply H. ring.
Qed.

Lemma integrals_between_matter_only_bounds_witness :
  2 / 3 <= 2 / 3 <= 2 / 3 / sqrt 1 /\ 2 <= 2 <= 2 / sqrt 1.
Proof.
  apply (integrals_between_matter_only_bounds 1 (2 / 3) 2);
    [lra | apply matter_only_integral | apply matter_only_diameter_integral].
Defined.

(** X10. In the matter-only universe (Omega_m = 1) the diameter integral is
    exactly 2, so that the diameter is 4 c / H0; when the quadrature has
    converged the diameter that the cell computes is within 1e-6
    (relative) of that value. *)
Theorem matter_only_diameter (quad : integrator) (kpc c H0 : R) :
  converged quad (diameter_integrand 1) ->
  is_RInt_0 (diameter_integrand 1) 1 2 /\
  Rabs (diameter quad kpc c H0 1 - 4 * c / H0_cgs kpc H0)
  <= 1e-6 * Rabs (4 * c / H0_cgs kpc H0).
Proof.
  intros Hq. split; [apply matter_only_diameter_integral|].
  pose proof (diameter_accuracy quad kpc c H0 1 2 Hq
                                matter_only_diameter_integral) as Hacc.
  replace (4 * c / H0_cgs kpc H0) with (2 * c / H0_cgs kpc H0 * 2)
    by (unfold Rdiv; ring).
  eapply Rle_trans; [exact Hacc|].
  rewrite Rabs_mult, (Rabs_pos_eq 2) by lra.
  assert (Hmax : Rmax epsabs (epsrel * 2) <= 1e-6 * 2).
  { unfold epsabs, epsrel. apply Rmax_lub; lra. }
  pose proof (Rabs_pos (2 * c / H0_cgs kpc H0)). nra.
Qed.

Lemma matter_only_diameter_witness :
  is_RInt_0 (diameter_integrand 1) 1 2 /\
  Rabs (diameter exact_quad 3.0856775814913674e19 29979245800 H0 1
        - 4 * 29979245800 / H0_cgs 3.0856775814913674e19 H0)
  <= 1e-6 * Rabs (4 * 29979245800 / H0_cgs 3.0856775814913674e19 H0).
Proof.
  apply (matter_only_diameter exact_quad). apply exact_quad_converged.
Defined.

(** ** More matter, a younger and smaller universe *)

Lemma E_pos (om a : R) : 0 <= om -> 0 < a <= 1 -> 0 < E om a.
Proof.
  intros Hom Ha.
  unfold E. apply sqrt_lt_R0. rewrite powerRZ_m3.
  pose proof (inv_cube_ge_one a Ha). nra.
Qed.

Lemma E_increasing_in_matter (om om' a : R) :
  0 <= om <= om' -> 0 < a <= 1 -> E om a <= E om' a.
Proof.
  intros Hom Ha. unfold E. rewrite !powerRZ_m3. apply sqrt_le_1_alt.
  pose proof (inv_cube_ge_one a Ha). nra.
Qed.

(** X11. The age and the diameter integrals decrease as the matter density
    grows: of two universes with the same H0, the one with more matter is
    the younger and the smaller. *)
Theorem more_matter_gives_a_younger_universe (om om' A A' D D' : R) :
  0 < om <= om' -> om' <= 1 ->
  is_RInt_0 (age_integrand om) 1 A ->
  is_RInt_0 (age_integrand om') 1 A' ->
  is_RInt_0 (diameter_integrand om) 1 D ->
  is_RInt_0 (diameter_integrand om') 1 D' ->
  A' <= A /\ D' <= D.
Proof.
  intros Hom Hom' HA HA' HD HD'.
  assert (Hcmp : forall a, 0 < a <= 1 -> 0 < E om a <= E om' a).
  { intros a Ha. split; [apply E_pos; lra|].
    apply E_increasing_in_matter; lra. }
  split.
  - apply (is_RInt_0_le (age_integrand om') (age_integrand om));
      [|assumption|assumption].
    intros a Ha. destruct (Hcmp a Ha) as (H0 & H1).
    unfold age_integrand, Rdiv. rewrite !Rmult_1_l.
    apply Rinv_le_contravar; nra.
  - apply (is_RInt_0_le (diameter_integrand om') (diameter_integrand om));
      [|assumption|assumption].
    intros a Ha. destruct (Hcmp a Ha) as (H0 & H1).
    assert (Ha2 : 0 < a ^ 2) by (apply pow_lt; lra).
    unfold diameter_integrand, Rdiv. rewrite !Rmult_1_l.
    apply Rinv_le_contravar; nra.
Qed.

Lemma exact_quad_integral (f : R -> R) :
  (exists I, is_RInt_0 f 1 I) -> is_RInt_0 f 1 (fst (exact_quad f 0 1)).
Proof.
  intros (I & HI). now rewrite (exact_quad_value f 0 I HI).
Qed.

Lemma age_integral_exists (om : R) :
  0 < om <= 1 -> exists I, is_RInt_0 (age_integrand om) 1 I.
Proof.
  intros Hom. destruct (age_substituted_integrable om Hom) as (I & HI).
  exists I. now apply age_integral.
Qed.

Lemma diameter_integral_exists (om : R) :
  0 < om <= 1 -> exists I, is_RInt_0 (diameter_integrand om) 1 I.
Proof.
  intros Hom. destruct (diameter_substituted_integrable om Hom) as (I & HI).
  exists I. now apply diameter_integral.
Qed.

Lemma more_matter_gives_a_younger_universe_witness :
  2 / 3 <= fst (exact_quad (age_integrand (1 / 2)) 0 1) /\
  2 <= fst (exact_quad (diameter_integrand (1 / 2)) 0 1).
Proof.
  apply (more_matter_gives_a_younger_universe
           (1 / 2) 1
           (fst (exact_quad (age_integrand (1 / 2)) 0 1)) (2 / 3)
           (fst (exact_quad (diameter_integrand (1 / 2)) 0 1)) 2);
    [lra | lra
    | apply exact_quad_integral, age_integral_exists; lra
    | apply matter_only_integral
    | apply exact_quad_integral, diameter_integral_exists; lra
    | apply matter_only_diameter_integral].
Defined.

(** ** The diameter against the light-travel distance *)

(** X12. The diameter integral is at least the age integral, since
    1/(a^2 E) >= 1/(a E) on (0, 1]: the diameter of the observable
    universe is at least the distance 2 c t that light covers, there and
    back, in the age t. *)
Theorem diameter_exceeds_light_travel_distance (om A D kpc c H0 : R) :
  0 < om <= 1 -> 0 < kpc -> 0 <= c -> 0 < H0 ->
  is_RInt_0 (age_integrand om) 1 A ->
  is_RInt_0 (diameter_integrand om) 1 D ->
  A <= D /\
  2 * c * age exact_quad kpc H0 om <= diameter exact_quad kpc c H0 om.
Proof.
  intros Hom Hk Hc HH HA HD.
  assert (HAD : A <= D).
  { apply (is_RInt_0_le (age_integrand om) (diameter_integrand om));
      [|assumption|assumption].
    intros a Ha. pose proof (E_pos om a (Rlt_le _ _ (proj1 Hom)) Ha) as HE.
    unfold age_integrand, diameter_integrand, Rdiv. rewrite !Rmult_1_l.
    assert (HaE : 0 < a * E om a) by (apply Rmult_lt_0_compat; lra).
    replace (a ^ 2 * E om a) with (a * (a * E om a)) by ring.
    apply Rinv_le_contravar; [apply Rmult_lt_0_compat; lra|nra]. }
  split; [exact HAD|].
  unfold age, diameter.
  rewrite (exact_quad_value _ 0 A HA), (exact_quad_value _ 0 D HD).
  assert (HH0 : 0 < H0_cgs kpc H0).
  { unfold H0_cgs. apply Rdiv_lt_0_compat; nra. }
  assert (Hi : 0 < / H0_cgs kpc H0) by now apply Rinv_0_lt_compat.
  unfold Rdiv. rewrite Rmult_1_l.
  replace (2 * c * (/ H0_cgs kpc H0 * A))
    with (2 * c * / H0_cgs kpc H0 * A) by ring.
  apply Rmult_le_compat_l; [|exact HAD]. nra.
Qed.

Lemma diameter_exceeds_light_travel_distance_witness :
  2 / 3 <= 2 /\
  2 * 29979245800 * age exact_quad 3.0856775814913674e19 H0 1
  <= diameter exact_quad 3.0856775814913674e19 29979245800 H0 1.
Proof.
  apply (diameter_exceeds_light_travel_distance
           1 (2 / 3) 2 3.0856775814913674e19 29979245800 H0);
    try (unfold H0; lra);
    [apply matter_only_integral | apply matter_only_diameter_integral].
Defined.

(** ** The de Sitter limit *)

Lemma de_sitter_diameter_integrand (a : R) :
  diameter_integrand 0 a = / (a * a).
Proof.
  unfold diameter_integrand, E.
  replace (0 * powerRZ a (-3) + (1 - 0)) with 1 by ring.
  rewrite sqrt_1, Rmult_1_r. unfold Rdiv. simpl. rewrite Rmult_1_r. ring.
Qed.

Lemma de_sitter_diameter_partial (x : R) :
  0 < x <= 1 -> is_RInt (diameter_integrand 0) x 1 (/ x - 1).
Proof.
  intros Hx.
  assert (H : forall I, I = -1 / 1 - -1 / x ->
                        is_RInt (diameter_integrand 0) x 1 I).
  { intros I ->.
    apply (is_RInt_antiderivative (diameter_integrand 0)
                                  (fun a => -1 / a)).
    - lra.
    - intros a Ha. rewrite de_sitter_diameter_integrand.
      assert (Ha0 : id a <> 0) by (unfold id; lra).
      pose proof (derivable_pt_lim_div (fct_cte (-1)) id a 0 1
                    (derivable_pt_lim_const (-1) a)
                    (derivable_pt_lim_id a) Ha0) as Hd.
      unfold div_fct, fct_cte, id in Hd.
      replace (/ (a * a)) with ((0 * a - 1 * -1) / a²); [exact Hd|].
      unfold Rsqr. field. lra.
    - intros a Ha.
      apply (continuity_pt_locally_ext (fun a => / (a * a))
                                       (diameter_integrand 0) 1 a);
        [lra | intros y _; symmetry; apply de_sitter_diameter_integrand |].
      reg. nra. }
  apply H. field. lra.
Qed.

Lemma de_sitter_diameter_diverges :
  ~ exists I, is_RInt_0 (diameter_integrand 0) 1 I.
Proof.
  intros (I & _ & Hlim).
  destruct (Hlim 1 Rlt_0_1) as (delta & Hdelta & Hclose).
  set (x := Rmin (Rmin (delta / 2) 1) (/ (Rabs I + 3))).
  pose proof (Rabs_pos I) as HI0.
  assert (Hinv : 0 < / (Rabs I + 3)) by (apply Rinv_0_lt_compat; lra).
  assert (Hx0 : 0 < x).
  { unfold x. repeat apply Rmin_glb_lt; lra. }
  assert (Hxd : x < delta).
  { unfold x. eapply Rle_lt_trans; [apply Rmin_l|].
    eapply Rle_lt_trans; [apply Rmin_l|]. lra. }
  assert (Hx1 : x <= 1).
  { unfold x. eapply Rle_trans; [apply Rmin_l|]. apply Rmin_r. }
  assert (Hxe : x <= / (Rabs I + 3)) by apply Rmin_r.
  assert (Hbig : Rabs I + 3 <= / x).
  { rewrite <- (Rinv_inv (Rabs I + 3)).
    apply Rinv_le_contravar; assumption. }
  pose proof (Hclose x (/ x - 1) (conj Hx0 Hxd) Hx1
                     (de_sitter_diameter_partial x (conj Hx0 Hx1))) as Habs.
  apply Rabs_def2 in Habs. pose proof (Rle_abs I). lra.
Qed.

(** X13. With no matter at all (Omega_m = 0, the de Sitter universe) the two
    integrands are 1/a and 1/a^2 and neither has an integral over
    (0, 1]: there is no age and no diameter for the cell to estimate. *)
Theorem de_sitter_has_no_age_and_no_diameter :
  (forall a, age_integrand 0 a = / a) /\
  (forall a, diameter_integrand 0 a = / (a * a)) /\
  ~ (exists I, is_RInt_0 (age_integrand 0) 1 I) /\
  ~ (exists I, is_RInt_0 (diameter_integrand 0) 1 I).
Proof.
  split; [exact de_sitter_integrand|].
  split; [exact de_sitter_diameter_integrand|].
  split; [exact de_sitter_diverges|exact de_sitter_diameter_diverges].
Qed.

(** ** What a converged quadrature guarantees for any matter density *)

Lemma converged_lower (quad : integrator) (f : R -> R) (I lo : R) :
  converged quad f -> is_RInt_0 f 1 I -> 0 < lo <= I ->
  lo * (1 - epsrel) - epsabs <= fst (quad f 0 1).
Proof.
  intros Hq HI Hlo.
  pose proof (Rabs_le_between _ _ (Hq I HI)) as Hb.
  assert (Hmax : Rmax epsabs (epsrel * Rabs I) <= epsabs + epsrel * I).
  { rewrite (Rabs_pos_eq I) by lra. unfold epsabs, epsrel.
    apply Rmax_lub; nra. }
  unfold epsrel in *. nra.
Qed.

(** X17. When the quadrature has met its tolerances, then for every matter
    density in (0, 1] and positive kpc, c and H0 the two results are
    positive: the age is at least 0.666666 kpc/H0 and the diameter at
    least 3.999999 c kpc/H0, the matter-only values less the tolerance. *)
Theorem converged_age_and_diameter_are_positive
        (quad : integrator) (kpc c H0 om : R) :
  0 < om <= 1 -> 0 < kpc -> 0 < c -> 0 < H0 ->
  converged quad (age_integrand om) ->
  converged quad (diameter_integrand om) ->
  0 < 0.666666 * (kpc / H0) <= age quad kpc H0 om /\
  0 < 3.999999 * c * (kpc / H0) <= diameter quad kpc c H0 om.
Proof.
  intros Hom Hk Hc HH Hqa Hqd.
  destruct (age_substituted_integrable om Hom) as (A & HA).
  destruct (diameter_substituted_integrable om Hom) as (D & HD).
  assert (HA2 : 2 / 3 <= A).
  { apply (substituted_bounds (age_substituted om) (2 / 3) 2 om A);
      [assumption|lra|reflexivity|assumption]. }
  assert (HD2 : 2 <= D).
  { apply (substituted_bounds (diameter_substituted om) 2 6 om D);
      [assumption|lra|reflexivity|assumption]. }
  pose proof (converged_lower quad _ A (2 / 3) Hqa
                (age_integral om A Hom HA)) as La.
  pose proof (converged_lower quad _ D 2 Hqd
                (diameter_integral om D Hom HD)) as Ld.
  assert (Hr : 0 < kpc / H0) by now apply Rdiv_lt_0_compat.
  assert (Ea : age quad kpc H0 om
               = kpc / H0 * fst (quad (age_integrand om) 0 1)).
  { unfold age, H0_cgs. field. lra. }
  assert (Ed : diameter quad kpc c H0 om
               = c * (kpc / H0) * (2 * fst (quad (diameter_integrand om) 0 1))).
  { unfold diameter, H0_cgs. field. lra. }
  assert (Ha : 0.666666 <= fst (quad (age_integrand om) 0 1)).
  { unfold epsrel, epsabs in La. lra. }
  assert (Hd : 3.999999 <= 2 * fst (quad (diameter_integrand om) 0 1)).
  { unfold epsrel, epsabs in Ld. lra. }
  assert (Hcr : 0 < c * (kpc / H0)) by now apply Rmult_lt_0_compat.
  rewrite Ea, Ed. repeat split; nra.
Qed.

Lemma converged_age_and_diameter_are_positive_witness :
  0 < 0.666666 * (3.0856775814913674e19 / H0)
  <= age exact_quad 3.0856775814913674e19 H0 omegam /\
  0 < 3.999999 * 29979245800 * (3.0856775814913674e19 / H0)
  <= diameter exact_quad 3.0856775814913674e19 29979245800 H0 omegam.
Proof.
  apply (converged_age_and_diameter_are_positive
           exact_quad 3.0856775814913674e19 29979245800 H0 omegam);
    try (unfold H0, omegam; lra); apply exact_quad_converged.
Defined.

(** ** A matter density below the rounding error *)

Lemma partial_integral_grows (f : R -> R) (x t Ix It : R) :
  x <= t <= 1 -> (forall a, x < a < t -> 0 <= f a) ->
  is_RInt f x 1 Ix -> is_RInt f t 1 It -> It <= Ix.
Proof.
  intros Hxt Hpos (prx & <-) (prt & <-).
  pose (prxt := RiemannInt_P22 prx Hxt).
  rewrite <- (RiemannInt_P26 prxt prt prx) by lra.
  assert (H0 : 0 <= RiemannInt prxt).
  { replace 0 with (0 * (t - x)) by ring.
    rewrite <- (RiemannInt_P15 (RiemannInt_P14 x t 0)).
    apply RiemannInt_P19; [lra|]. intros a Ha. now apply Hpos. }
  lra.
Qed.

Lemma is_RInt_0_lower (f : R -> R) (t I It : R) :
  0 < t <= 1 -> (forall a, 0 < a <= 1 -> 0 <= f a) ->
  is_RInt_0 f 1 I -> is_RInt f t 1 It -> It <= I.
Proof.
  intros Ht Hpos (Hex & Hlim) HIt.
  destruct (Rle_or_lt It I) as [Hle|Hlt]; [exact Hle|exfalso].
  destruct (Hlim (It - I)) as (d & Hd & Hclose); [lra|].
  set (x := Rmin (d / 2) t).
  assert (Hx0 : 0 < x) by (unfold x; apply Rmin_glb_lt; lra).
  assert (Hxd : x < d).
  { unfold x. eapply Rle_lt_trans; [apply Rmin_l|]. lra. }
  assert (Hxt : x <= t) by apply Rmin_r.
  destruct (Hex x) as (Ix & HIx); [lra|].
  assert (Hge : It <= Ix).
  { apply (partial_integral_grows f x t); [lra| |assumption|assumption].
    intros a Ha. apply Hpos. lra. }
  pose proof (Hclose x Ix (conj Hx0 Hxd) (Rle_trans _ _ _ Hxt (proj2 Ht)) HIx)
    as Habs.
  apply Rabs_def2 in Habs. lra.
Qed.

Lemma half_inverse_square_partial (t : R) :
  0 < t <= 1 ->
  is_RInt (fun a => 1 / 2 * / (a * a)) t 1 (1 / 2 * (/ t - 1)).
Proof.
  intros Ht.
  assert (H : forall I, I = 1 / 2 * (-1 / 1) - 1 / 2 * (-1 / t) ->
                        is_RInt (fun a => 1 / 2 * / (a * a)) t 1 I).
  { intros I ->.
    apply (is_RInt_antiderivative (fun a => 1 / 2 * / (a * a))
                                  (fun a => 1 / 2 * (-1 / a))).
    - lra.
    - intros a Ha.
      assert (Ha0 : id a <> 0) by (unfold id; lra).
      pose proof (derivable_pt_lim_div (fct_cte (-1)) id a 0 1
                    (derivable_pt_lim_const (-1) a)
                    (derivable_pt_lim_id a) Ha0) as Hd.
      pose proof (derivable_pt_lim_scal _ (1 / 2) a _ Hd) as Hs.
      unfold mult_real_fct, div_fct, fct_cte, id in Hs.
      replace (/ (a * a)) with ((0 * a - 1 * -1) / a²); [exact Hs|].
      unfold Rsqr. field. lra.
    - intros a Ha. reg. nra. }
  apply H. field. lra.
Qed.

Lemma E_at_most_two (om a : R) :
  0 <= om <= 1 -> 0 < a -> om <= 3 * (a * a * a) -> E om a <= 2.
Proof.
  intros Hom Ha Hcube. unfold E. rewrite powerRZ_m3.
  assert (H3 : 0 < a * a * a) by (repeat apply Rmult_lt_0_compat; lra).
  assert (Hq : om * / (a * a * a) <= 3).
  { apply Rmult_le_reg_r with (a * a * a); [exact H3|].
    rewrite Rmult_assoc, Rinv_l by lra. lra. }
  replace 2 with (sqrt (2 * 2)) by (apply sqrt_square; lra).
  apply sqrt_le_1_alt. lra.
Qed.

Lemma diameter_integrand_lower (om a : R) :
  0 <= om <= 1 -> 0 < a <= 1 -> om <= 3 * (a * a * a) ->
  1 / 2 * / (a * a) <= diameter_integrand om a.
Proof.
  intros Hom Ha Hcube.
  pose proof (E_pos om a (proj1 Hom) Ha) as HE0.
  pose proof (E_at_most_two om a Hom (proj1 Ha) Hcube) as HE2.
  assert (Haa : 0 < a * a) by (apply Rmult_lt_0_compat; lra).
  assert (H : / (2 * (a * a)) <= / (a * a * E om a)).
  { apply Rinv_le_contravar; [apply Rmult_lt_0_compat; lra|nra]. }
  unfold diameter_integrand.
  replace (1 / 2 * / (a * a)) with (/ (2 * (a * a))) by (field; lra).
  replace (1 / (a ^ 2 * E om a)) with (/ (a * a * E om a)) by (field; lra).
  exact H.
Qed.

Lemma diameter_integrand_nonneg (om a : R) :
  0 <= om -> 0 < a <= 1 -> 0 <= diameter_integrand om a.
Proof.
  intros Hom Ha. pose proof (E_pos om a Hom Ha) as HE.
  unfold diameter_integrand. apply Rlt_le, Rdiv_lt_0_compat; [lra|].
  apply Rmult_lt_0_compat; [apply pow_lt|]; lra.
Qed.

Lemma tiny_density_diameter (D : R) :
  is_RInt_0 (diameter_integrand 1e-300) 1 D -> 4e99 <= D.
Proof.
  intros HD.
  assert (Ht : 0 < 1e-100 <= 1) by lra.
  apply Rle_trans with (1 / 2 * (/ 1e-100 - 1)); [lra|].
  destruct HD as (Hex & Hlim).
  destruct (Hex 1e-100 Ht) as (It & HIt).
  apply Rle_trans with It.
  - apply (is_RInt_le (fun a => 1 / 2 * / (a * a))
                      (diameter_integrand 1e-300) 1e-100 1); [lra| | |exact HIt].
    + intros a Ha. apply diameter_integrand_lower; [lra|lra|].
      assert (H1 : 1e-100 * 1e-100 <= a * a) by nra.
      assert (H2 : 1e-100 * 1e-100 * 1e-100 <= a * a * a) by nra.
      lra.
    + now apply half_inverse_square_partial.
  - apply (is_RInt_0_lower (diameter_integrand 1e-300) 1e-100);
      [exact Ht| |split; assumption|exact HIt].
    intros a Ha. apply diameter_integrand_nonneg; lra.
Qed.

Lemma small_density_diameter (D : R) :
  is_RInt_0 (diameter_integrand 1e-100) 1 D -> 2 <= D <= 2e50.
Proof.
  intros HD.
  assert (Hom : 0 < 1e-100 <= 1) by lra.
  assert (H2 : 0 <= 2) by lra.
  pose proof (substituted_bounds (diameter_substituted 1e-100) 2 6 1e-100 D
                Hom H2 (fun u => eq_refl)
                (diameter_integral_value 1e-100 D Hom HD)) as (Hlow & Hup).
  assert (Hs : sqrt 1e-100 = 1e-50) by (apply sqrt_lem_1; lra).
  rewrite Hs in Hup. lra.
Qed.

Lemma no_estimate_fits_both (D D' y : R) :
  4e99 <= D -> 0 <= D' <= 2e50 ->
  ~ (Rabs (y - D) <= Rmax epsabs (epsrel * Rabs D) /\
     Rabs (y - D') <= Rmax epsabs (epsrel * Rabs D')).
Proof.
  intros HD HD' (H1 & H2).
  apply Rabs_le_between in H1. apply Rabs_le_between in H2.
  rewrite (Rabs_pos_eq D) in H1 by lra.
  rewrite (Rabs_pos_eq D') in H2 by lra.
  assert (M1 : Rmax epsabs (epsrel * D) <= epsabs + epsrel * D).
  { unfold epsabs, epsrel. apply Rmax_lub; lra. }
  assert (M2 : Rmax epsabs (epsrel * D') <= epsabs + epsrel * D').
  { unfold epsabs, epsrel. apply Rmax_lub; lra. }
  unfold epsabs, epsrel in *. lra.
Qed.

#[local] Set Warnings "-inexact-float".

(** C3 as stated fails: Omega_m = 1e-300 and Omega_m = 1e-100 both lie
    in (0, 1), and in binary64 both are rounded away in E, which
    returns 1.0 at every sample point as it does for Omega_m = 0: the
    cell evaluates one and the same integrand and returns one and the
    same diameter for the two densities. The two integrals differ by
    more than a factor 1e49, so that no estimate is within the tolerance
    of both, and a quadrature that returns the same estimate for both
    has not converged on both. *)
Lemma tiny_matter_density_is_lost_in_rounding :
  ((0 <? 1e-300) && (1e-300 <? 1e-100) && (1e-100 <? 1))%float = true /\
  Forall (fun a =>
            Forall (fun p => FriedmannFloat.E 1e-300 a p = inr 1%float /\
                             FriedmannFloat.E 1e-100 a p = inr 1%float /\
                             FriedmannFloat.E 0 a p = inr 1%float)
                   (FriedmannFloat.pow_candidates a))
         FriedmannFloat.nodes /\
  0 < 1e-300 < 1 /\ 0 < 1e-100 < 1 /\
  exists D D',
    is_RInt_0 (diameter_integrand 1e-300) 1 D /\
    is_RInt_0 (diameter_integrand 1e-100) 1 D' /\
    4e99 <= D /\ D' <= 2e50 /\
    (forall y,
       ~ (Rabs (y - D) <= Rmax epsabs (epsrel * Rabs D) /\
          Rabs (y - D') <= Rmax epsabs (epsrel * Rabs D'))) /\
    forall quad : integrator,
      fst (quad (diameter_integrand 1e-300) 0 1)
      = fst (quad (diameter_integrand 1e-100) 0 1) ->
      ~ (converged quad (diameter_integrand 1e-300) /\
         converged quad (diameter_integrand 1e-100)).
Proof.
  split; [vm_compute; reflexivity|].
  split; [exact FriedmannFloatTheory.tiny_density_at_the_nodes|].
  split; [lra|]. split; [lra|].
  destruct (diameter_integral_exists 1e-300) as (D & HD); [lra|].
  destruct (diameter_integral_exists 1e-100) as (D' & HD'); [lra|].
  exists D, D'.
  pose proof (tiny_density_diameter D HD) as Hlo.
  pose proof (small_density_diameter D' HD') as (Hlow & Hhi).
  assert (H0 : 0 <= D' <= 2e50) by lra.
  repeat match goal with |- _ /\ _ => split end; try assumption.
  - intros y. now apply no_estimate_fits_both.
  - intros quad Heq (Hc & Hc').
    apply (no_estimate_fits_both D D'
             (fst (quad (diameter_integrand 1e-300) 0 1)) Hlo H0).
    split; [now apply Hc|]. rewrite Heq. now apply Hc'.
Qed.

End FriedmannTheory.

(** * Properties of the age and the diameter in Planck units *)

Module NaturalUnitsTheory.

Import Dimensional Friedmann NaturalUnits.
Import DimensionalTheory FriedmannTheory.
Open Scope R_scope.

Lemma sqrt_between (x lo hi : R) :
  0 <= lo -> 0 <= hi -> lo * lo <= x <= hi * hi -> lo <= sqrt x <= hi.
Proof.
  intros Hlo Hhi Hx. split.
  - rewrite <- (sqrt_square lo) by assumption. apply sqrt_le_1_alt. lra.
  - rewrite <- (sqrt_square hi) by assumption. apply sqrt_le_1_alt. lra.
Qed.

Lemma div_between (x y xl xh yl yh L U : R) :
  0 < yl <= y -> y <= yh -> xl <= x <= xh -> 0 <= L ->
  L * yh <= xl -> xh <= U * yl -> 0 <= U -> L <= x / y <= U.
Proof.
  intros Hy Hyh Hx HL Hlo Hhi HU.
  assert (0 < y) by lra.
  split.
  - apply Rmult_le_reg_r with y; [assumption|].
    replace (x / y * y) with x by (field; lra). nra.
  - apply Rmult_le_reg_r with y; [assumption|].
    replace (x / y * y) with x by (field; lra). nra.
Qed.

Lemma power_number (x : R) (q : Q) : power x (Number q) = Rpower x (Q2R q).
Proof.
  unfold power, Number. cbn [constant].
  now rewrite (Qeq_eqR _ _ (Qred_correct q)).
Qed.

Lemma Rpower_half (x : R) : 0 < x -> Rpower x (Q2R (1 # 2)) = sqrt x.
Proof.
  intros Hx. replace (Q2R (1 # 2)) with (/ 2) by (unfold Q2R; simpl; lra).
  now apply Rpower_sqrt.
Qed.

Lemma Rpower_minus_five_halves (x : R) :
  0 < x -> Rpower x (Q2R (-5 # 2)) = / (x * x * sqrt x).
Proof.
  intros Hx.
  replace (Q2R (-5 # 2)) with (- (INR 2 + / 2))
    by (unfold Q2R; simpl; lra).
  rewrite Rpower_Ropp, Rpower_plus, Rpower_pow, Rpower_sqrt by assumption.
  f_equal. ring.
Qed.

Lemma Rpower_minus_three_halves (x : R) :
  0 < x -> Rpower x (Q2R (-3 # 2)) = / (x * sqrt x).
Proof.
  intros Hx.
  replace (Q2R (-3 # 2)) with (- (INR 1 + / 2))
    by (unfold Q2R; simpl; lra).
  rewrite Rpower_Ropp, Rpower_plus, Rpower_pow, Rpower_sqrt by assumption.
  f_equal. ring.
Qed.

(** The Planck time and the Planck length that the cell builds. *)
Lemma t_p_cgs_value (c hbar G : R) :
  0 < c -> 0 < hbar -> 0 < G ->
  t_p_cgs c hbar G = inr (/ (c * c * sqrt c) * sqrt hbar * sqrt G).
Proof.
  intros Hc Hh HG. unfold t_p_cgs, unit_of. rewrite t_p_exponents.
  cbn [bind ret fst snd]. rewrite !power_number.
  now rewrite Rpower_minus_five_halves, !Rpower_half.
Qed.

Lemma l_p_cgs_value (c hbar G : R) :
  0 < c -> 0 < hbar -> 0 < G ->
  l_p_cgs c hbar G = inr (/ (c * sqrt c) * sqrt hbar * sqrt G * 100).
Proof.
  intros Hc Hh HG. unfold l_p_cgs, unit_of. rewrite l_p_exponents.
  cbn [bind ret fst snd]. rewrite !power_number.
  now rewrite Rpower_minus_three_halves, !Rpower_half.
Qed.

Lemma inv_between (x lo hi : R) :
  0 < lo <= x -> x <= hi -> / hi <= / x <= / lo.
Proof.
  intros Hlo Hhi. split; apply Rinv_le_contravar; lra.
Qed.

Lemma mult_between (a b al ah bl bh : R) :
  0 <= al <= a -> a <= ah -> 0 <= bl <= b -> b <= bh ->
  al * bl <= a * b <= ah * bh.
Proof.
  intros Ha Hah Hb Hbh. split; apply Rmult_le_compat; lra.
Qed.

(** The square roots of the three constants. *)
Lemma sqrt_c : 17314.5 <= sqrt 299792458 <= 17314.6.
Proof. apply sqrt_between; lra. Qed.

Lemma sqrt_hbar : 1.02692e-17 <= sqrt 1.054571817e-34 <= 1.02693e-17.
Proof. apply sqrt_between; lra. Qed.

Lemma sqrt_G : 8.1696e-6 <= sqrt 6.6743e-11 <= 8.1697e-6.
Proof. apply sqrt_between; lra. Qed.

Lemma planck_time_value :
  5.3911e-44
  <= / (299792458 * 299792458 * sqrt 299792458)
     * sqrt 1.054571817e-34 * sqrt 6.6743e-11
  <= 5.3914e-44.
Proof.
  pose proof sqrt_c as Hc. pose proof sqrt_hbar as Hh.
  pose proof sqrt_G as HG.
  set (sc := sqrt 299792458) in *. set (sh := sqrt 1.054571817e-34) in *.
  set (sg := sqrt 6.6743e-11) in *.
  destruct (inv_between (299792458 * 299792458 * sc)
              (299792458 * 299792458 * 17314.5)
              (299792458 * 299792458 * 17314.6)) as (Hul & Huh);
    [lra | lra |].
  set (u := / (299792458 * 299792458 * sc)) in *.
  assert (Hu0 : 0 <= / (299792458 * 299792458 * 17314.6)).
  { apply Rlt_le, Rinv_0_lt_compat. lra. }
  destruct (mult_between u sh
              (/ (299792458 * 299792458 * 17314.6))
              (/ (299792458 * 299792458 * 17314.5))
              1.02692e-17 1.02693e-17) as (H1l & H1h);
    [lra | lra | lra | lra |].
  assert (H10 : 0 <= / (299792458 * 299792458 * 17314.6) * 1.02692e-17).
  { apply Rmult_le_pos; lra. }
  destruct (mult_between (u * sh) sg
              (/ (299792458 * 299792458 * 17314.6) * 1.02692e-17)
              (/ (299792458 * 299792458 * 17314.5) * 1.02693e-17)
              8.1696e-6 8.1697e-6) as (H2l & H2h);
    [lra | lra | lra | lra |].
  fold u. lra.
Qed.

Lemma planck_length_value :
  1.6162e-33
  <= / (299792458 * sqrt 299792458)
     * sqrt 1.054571817e-34 * sqrt 6.6743e-11 * 100
  <= 1.6163e-33.
Proof.
  pose proof sqrt_c as Hc. pose proof sqrt_hbar as Hh.
  pose proof sqrt_G as HG.
  set (sc := sqrt 299792458) in *. set (sh := sqrt 1.054571817e-34) in *.
  set (sg := sqrt 6.6743e-11) in *.
  destruct (inv_between (299792458 * sc)
              (299792458 * 17314.5) (299792458 * 17314.6)) as (Hul & Huh);
    [lra | lra |].
  set (u := / (299792458 * sc)) in *.
  assert (Hu0 : 0 <= / (299792458 * 17314.6)).
  { apply Rlt_le, Rinv_0_lt_compat. lra. }
  destruct (mult_between u sh
              (/ (299792458 * 17314.6)) (/ (299792458 * 17314.5))
              1.02692e-17 1.02693e-17) as (H1l & H1h);
    [lra | lra | lra | lra |].
  assert (H10 : 0 <= / (299792458 * 17314.6) * 1.02692e-17).
  { apply Rmult_le_pos; lra. }
  destruct (mult_between (u * sh) sg
              (/ (299792458 * 17314.6) * 1.02692e-17)
              (/ (299792458 * 17314.5) * 1.02693e-17)
              8.1696e-6 8.1697e-6) as (H2l & H2h);
    [lra | lra | lra | lra |].
  fold u. lra.
Qed.

(** C5. With astropy's values of c, hbar and G substituted into the
    solved exponent triples, and a quadrature that has converged, the
    age in seconds divided by the Planck time is within 1 per cent of
    8.03e60 and the diameter in centimetres divided by the Planck length
    is within 1 per cent of 5.47e61. *)
Theorem planck_units_round_trip
        (quad : integrator) (kpc c_cgs c hbar G : R) :
  kpc = 3.0856775814913674e19 -> c_cgs = 29979245800 ->
  c = 299792458 -> hbar = 1.054571817e-34 -> G = 6.6743e-11 ->
  converged quad (age_integrand omegam) ->
  converged quad (diameter_integrand omegam) ->
  exists age_t_p diameter_l_p,
    NaturalUnits.cell c hbar G (age quad kpc H0 omegam)
                      (diameter quad kpc c_cgs H0 omegam)
    = inr [ ("Age (t_p)"%string, age_t_p);
            ("Diameter (l_p)"%string, diameter_l_p) ] /\
    Rabs (age_t_p - 8.03e60) <= 0.01 * 8.03e60 /\
    Rabs (diameter_l_p - 5.47e61) <= 0.01 * 5.47e61.
Proof.
  intros -> -> -> -> -> Hage Hdiam.
  destruct (planck_estimates quad Hage Hdiam) as (Qa & Qd).
  unfold NaturalUnits.cell.
  rewrite t_p_cgs_value, l_p_cgs_value by lra.
  eexists _, _. split; [reflexivity|].
  pose proof planck_time_value as Ht. pose proof planck_length_value as Hl.
  unfold age, diameter, H0_cgs, H0.
  set (qa := fst (quad (age_integrand omegam) 0 1)) in *.
  set (qd := fst (quad (diameter_integrand omegam) 0 1)) in *.
  split; apply Rabs_le.
  - match goal with |- _ <= ?x / ?y - _ <= _ =>
      destruct (div_between x y 4.3539e17 4.3564e17 5.3911e-44 5.3914e-44
                  7.9497e60 8.1103e60) as (Dl & Dh); try lra
    end.
  - match goal with |- _ <= ?x / ?y - _ <= _ =>
      destruct (div_between x y 8.8939e28 8.8983e28 1.6162e-33 1.6163e-33
                  5.4153e61 5.5247e61) as (Dl & Dh); try lra
    end.
Qed.

(** The output stored in the notebook for this cell is older than the
    one stored for the Friedmann cell: it is 0.6 to 0.8 per cent below
    what the cell computes from the present constants. It is within
    1 per cent of 8.03e60 and 5.47e61 all the same. *)
Lemma stored_output_is_older (quad : integrator) :
  converged quad (age_integrand omegam) ->
  converged quad (diameter_integrand omegam) ->
  exists age_t_p diameter_l_p stored_t_p stored_l_p,
    NaturalUnits.cell 299792458 1.054571817e-34 6.6743e-11
      (age quad 3.0856775814913674e19 H0 omegam)
      (diameter quad 3.0856775814913674e19 29979245800 H0 omegam)
    = inr [ ("Age (t_p)"%string, age_t_p);
            ("Diameter (l_p)"%string, diameter_l_p) ] /\
    NaturalUnits.stored_output
    = [ ("Age (t_p)"%string, stored_t_p);
        ("Diameter (l_p)"%string, stored_l_p) ] /\
    1.006 * stored_t_p <= age_t_p <= 1.008 * stored_t_p /\
    1.006 * stored_l_p <= diameter_l_p <= 1.008 * stored_l_p /\
    Rabs (stored_t_p - 8.03e60) <= 0.01 * 8.03e60 /\
    Rabs (stored_l_p - 5.47e61) <= 0.01 * 5.47e61.
Proof.
  intros Hage Hdiam.
  destruct (planck_estimates quad Hage Hdiam) as (Qa & Qd).
  unfold NaturalUnits.cell.
  rewrite t_p_cgs_value, l_p_cgs_value by lra.
  eexists _, _, _, _. split; [reflexivity|]. split; [reflexivity|].
  pose proof planck_time_value as Ht. pose proof planck_length_value as Hl.
  unfold age, diameter, H0_cgs, H0.
  set (qa := fst (quad (age_integrand omegam) 0 1)) in *.
  set (qd := fst (quad (diameter_integrand omegam) 0 1)) in *.
  split; [|split; [|split; apply Rabs_le; lra]].
  - match goal with |- _ <= ?x / ?y <= _ =>
      apply (div_between x y 4.3539e17 4.3564e17 5.3911e-44 5.3914e-44);
        lra
    end.
  - match goal with |- _ <= ?x / ?y <= _ =>
      apply (div_between x y 8.8939e28 8.8983e28 1.6162e-33 1.6163e-33);
        lra
    end.
Qed.

Lemma planck_units_round_trip_witness :
  exists age_t_p diameter_l_p,
    NaturalUnits.cell 299792458 1.054571817e-34 6.6743e-11
      (age exact_quad 3.0856775814913674e19 H0 omegam)
      (diameter exact_quad 3.0856775814913674e19 29979245800 H0 omegam)
    = inr [ ("Age (t_p)"%string, age_t_p);
            ("Diameter (l_p)"%string, diameter_l_p) ] /\
    Rabs (age_t_p - 8.03e60) <= 0.01 * 8.03e60 /\
    Rabs (diameter_l_p - 5.47e61) <= 0.01 * 5.47e61.
Proof.
  apply (planck_units_round_trip exact_quad);
    [reflexivity .. | apply exact_quad_converged | apply exact_quad_converged].
Defined.

(** ** The Planck units of any positive constants *)










End NaturalUnitsTheory.

(** * Properties of the composition chart *)

Module CompositionTheory.

Import Composition.

#[local] Set Warnings "-inexact-float".

(** C9. The three fractions passed to the chart (baryons, cold dark
    matter, dark energy, with h = H0/100) sum to a little less than 1:
    to more than 0.998 and to less than 0.999, that is to within 0.2 per
    cent of 100 per cent, on binary64 floats whichever of the admissible
    values the library gives to h**2, and in exact decimal arithmetic
    too. *)
Theorem fractions_sum_to_nearly_one :
  Forall (fun h2 => sums_between 0.998 0.999 (sizes h2) = true)
         pow_candidates /\
  (fold_right Qplus 0 sizes_exact > 998 # 1000)%Q /\
  (fold_right Qplus 0 sizes_exact < 999 # 1000)%Q.
Proof.
  split.
  - repeat constructor; vm_compute; reflexivity.
  - split; vm_compute; reflexivity.
Qed.

End CompositionTheory.
